(** * Ultimate Target: the monthly projection engine and the sustainable-spend solver

    Shallow embedding of [simulate] and of the [sustainableSpendToday]
    closure of [src/App.jsx].

    Number model.  A JavaScript number is modelled by a real number of the
    Standard Library: [+ - * /] are exact, [NaN] and the infinities are
    outside the model, and binary64 rounding is not modelled.  Quantities
    that the source keeps integral (month counters, [Math.round] and
    [Math.floor] results) are integers of [Z], injected with [IZR] where
    the source mixes them with other numbers. *)

From Stdlib Require Import Reals Lra Lia ZArith List Bool.
From Stdlib Require Import Sorted Permutation.
Import ListNotations.

Local Open Scope R_scope.

(** ** JavaScript primitives *)

Definition Rleb (x y : R) : bool := if Rle_dec x y then true else false.
Definition Rltb (x y : R) : bool := if Rlt_dec x y then true else false.
Definition Reqb (x y : R) : bool := if Req_dec_T x y then true else false.

(** [Math.floor]. *)
Definition Math_floor (x : R) : Z := Zfloor x.

(** [Math.round]: the nearest integer, a tie going to the larger one. *)
Definition Math_round (x : R) : Z := Zfloor (x + 1 / 2).

(** [Math.max] on numbers is [Rmax]; on the integral quantities it is
    [Z.max]. *)

(** [Math.pow] on a positive base.  [simulate] calls it on [1 + preNet] and
    [1 + postNet], which are at least [0.01], and on [1 + inflationAnnual]
    and its twelfth root, which are positive exactly when
    [inflationAnnual > -1]; below that JavaScript yields [NaN] or an
    infinity and the model says nothing. *)
Definition Math_pow (x y : R) : R := Rpower x y.

(** Truthiness of a value that is a number or [null]: [null] and [0] are
    falsy. *)
Definition truthy {A : Type} (is0 : A -> bool) (o : option A) : bool :=
  match o with
  | Some x => negb (is0 x)
  | None => false
  end.

Definition truthyR (o : option R) : bool := truthy (fun x => Reqb x 0) o.
Definition truthyZ (o : option Z) : bool := truthy (fun z => Z.eqb z 0) o.

(** ** Data model *)

Record Params : Type := mkParams {
  currentAge : R;
  retirementAge : R;
  horizonYears : R;
  startAssets : R;
  monthlySave : R;
  preAnnualGross : R;
  postRealAnnualGross : R;
  inflationAnnual : R;
  annualSpendToday : R;
  delayYears : R;
  feeAnnualPre : R;
  feeAnnualPost : R;
  fixedFeeAnnual : R
}.

Record Row : Type := mkRow {
  age : Z;
  nominal : R;
  real : R
}.

Record Result : Type := mkResult {
  rows : list Row;
  endNom : R;
  endReal : R;
  depletedAge : option Z;
  depletedAgeExact : option R
}.

(** The mutable locals of the monthly loop: [bal], [dep] and [rows]. *)
Record State : Type := mkState {
  bal : R;
  dep : option R;
  acc : list Row
}.

(** ** simulate *)

Section Simulate.

Variable p : Params.

Definition months : Z := Z.max 1 (Math_round (horizonYears p * 12)).
Definition preNet : R := Rmax (-0.99) (preAnnualGross p - feeAnnualPre p).
Definition postNominal : R :=
  (1 + postRealAnnualGross p) * (1 + inflationAnnual p) - 1.
Definition postNet : R := Rmax (-0.99) (postNominal - feeAnnualPost p).
Definition mPre : R := Math_pow (1 + preNet) (1 / 12) - 1.
Definition mPost : R := Math_pow (1 + postNet) (1 / 12) - 1.
Definition mInfl : R := Math_pow (1 + inflationAnnual p) (1 / 12) - 1.
Definition mFix : R := Rmax 0 (fixedFeeAnnual p) / 12.
Definition toRet : Z :=
  Z.max 0 (Math_round ((retirementAge p - currentAge p) * 12)).
Definition dly : Z := Z.max 0 (Math_round (delayYears p * 12)).

(** The locals of one iteration, as functions of the month [m]. *)
Definition ageAt (m : Z) : R := currentAge p + IZR m / 12.
Definition pre (m : Z) : bool := (m <=? toRet)%Z.
Definition rate (m : Z) : R := if pre m then mPre else mPost.
Definition contribution (m : Z) : R :=
  if pre m && (dly <? m)%Z then monthlySave p else 0.
Definition msr (m : Z) : Z := Z.max 0 (m - toRet).
Definition spend (m : Z) : R :=
  if (0 <? msr m)%Z
  then annualSpendToday p / 12 * Math_pow (1 + mInfl) (IZR (msr m))
  else 0.

(** The balance of month [m] before the clamp. *)
Definition rawBalance (m : Z) (b : R) : R :=
  b * (1 + rate m) + contribution m - spend m - mFix.

Definition deflator (m : Z) : R := Math_pow (1 + mInfl) (IZR m).

(** The body of the [for] loop. *)
Definition step (m : Z) (st : State) : State :=
  let b := rawBalance m (bal st) in
  let dep' :=
    if Rleb b 0 && negb (truthyR (dep st)) then Some (ageAt m) else dep st in
  let bal' := if Rltb b 0 then 0 else b in
  let acc' :=
    if (Z.rem m 12 =? 0)%Z
    then acc st ++ [mkRow (Math_floor (ageAt m)) bal' (bal' / deflator m)]
    else acc st in
  mkState bal' dep' acc'.

(** [n] iterations of the loop, the first one at month [m]. *)
Fixpoint loop (n : nat) (m : Z) (st : State) : State :=
  match n with
  | O => st
  | S n' => loop n' (m + 1)%Z (step m st)
  end.

Definition init : State :=
  let b := Rmax 0 (startAssets p) in
  mkState b None [mkRow (Math_floor (currentAge p)) b b].

(** [rows[rows.length - 1]?.real ?? bal]. *)
Definition lastReal (rs : list Row) (b : R) : R :=
  match rev rs with
  | r :: _ => real r
  | [] => b
  end.

Definition simulate : Result :=
  let st := loop (Z.to_nat months) 1 init in
  mkResult (acc st) (bal st) (lastReal (acc st) (bal st))
    (if truthyR (dep st)
     then option_map Math_floor (dep st)
     else None)
    (dep st).

End Simulate.

(** ** The sustainable-spend solver

    In the source the solver is the body of the [sustainableSpendToday]
    memo of [App]: it builds the parameter object [p] from the component
    state and then searches.  [findSustainableSpend] is the search on a
    given [p] and life expectancy, [sustainableSpendToday] the whole memo. *)

(** [{ ...p, annualSpendToday: s }]. *)
Definition withSpend (p : Params) (s : R) : Params :=
  mkParams (currentAge p) (retirementAge p) (horizonYears p) (startAssets p)
    (monthlySave p) (preAnnualGross p) (postRealAnnualGross p)
    (inflationAnnual p) s (delayYears p) (feeAnnualPre p) (feeAnnualPost p)
    (fixedFeeAnnual p).

Definition hi0 : R := 100000.
Definition max : R := 5e7.
Definition tol : R := 0.1.

Section Solver.

Variable p : Params.
Variable lifeExpectancy : R.

Definition sim (s : R) : Result := simulate (withSpend p s).

(** [zero.depletedAge && zero.depletedAge <= lifeExpectancy]. *)
Definition zeroDepleted : bool :=
  let zero := sim 0 in
  truthyZ (depletedAge zero) &&
  match depletedAge zero with
  | Some z => Rleb (IZR z) lifeExpectancy
  | None => false
  end.

Definition lasts (s : R) : bool :=
  let t := sim s in
  match depletedAgeExact t with
  | None => true
  | Some d => Rleb (lifeExpectancy - tol) d
  end.

(** [while (lasts(hi) && hi < max) hi *= 2], run for at most [fuel]
    iterations; [bracket_fuel] shows that nine are enough from [hi0]. *)
Fixpoint bracket (fuel : nat) (hi : R) : R :=
  match fuel with
  | O => hi
  | S fuel' => if lasts hi && Rltb hi max then bracket fuel' (hi * 2) else hi
  end.

(** [n] iterations of the bisection loop; the result is [(lo, hi)]. *)
Fixpoint bisect (n : nat) (lo hi : R) : R * R :=
  match n with
  | O => (lo, hi)
  | S n' =>
      let m := (lo + hi) / 2 in
      if lasts m then bisect n' m hi else bisect n' lo m
  end.

Definition findSustainableSpend : R :=
  if zeroDepleted then 0
  else
    let hi := bracket 9 hi0 in
    if Rleb max hi then hi
    else IZR (Math_round (fst (bisect 34 0 hi))).

End Solver.

(** The component state the memo reads. *)
Record AppState : Type := mkAppState {
  ui_currentAge : R;
  ui_retirementAge : R;
  ui_lifeExpectancy : R;
  ui_initialAmount : R;
  ui_monthlySave : R;
  ui_returnPa : R;
  ui_postRetRealPa : R;
  ui_inflationPa : R;
  ui_delayYears : R;
  ui_diyFeePct : R
}.

(** [const horizonYears = Math.max(1, lifeExpectancy - currentAge)]. *)
Definition ui_horizonYears (u : AppState) : R :=
  Rmax 1 (ui_lifeExpectancy u - ui_currentAge u).

(** The object [p] of the memo; it has no [annualSpendToday], which [sim]
    supplies, so the field is left at 0 here. *)
Definition solverParams (u : AppState) : Params :=
  mkParams (ui_currentAge u) (ui_retirementAge u) (ui_horizonYears u)
    (Rmax 0 (ui_initialAmount u)) (ui_monthlySave u)
    (Rmax 0 (ui_returnPa u) / 100) (ui_postRetRealPa u / 100)
    (Rmax 0 (ui_inflationPa u) / 100) 0 (Rmax 0 (ui_delayYears u))
    (Rmax 0 (ui_diyFeePct u) / 100) (Rmax 0 (ui_diyFeePct u) / 100) 0.

Definition sustainableSpendToday (u : AppState) : R :=
  findSustainableSpend (solverParams u) (ui_lifeExpectancy u).

(** ** The trajectory of the loop

    Names for what the loop has computed after [n] months; [simulate]
    reads the state after [months] of them. *)

Definition stateAt (p : Params) (n : nat) : State := loop p n 1 (init p).

(** The balance after [n] months, clamped. *)
Definition balAt (p : Params) (n : nat) : R := bal (stateAt p n).

(** The balance of month [n], for [n >= 1], before the clamp. *)
Definition rawAt (p : Params) (n : nat) : R :=
  rawBalance p (Z.of_nat n) (balAt p (pred n)).

(** The row pushed before the loop and the row pushed at month [12 * k]. *)
Definition initRow (p : Params) : Row :=
  mkRow (Math_floor (currentAge p)) (Rmax 0 (startAssets p))
    (Rmax 0 (startAssets p)).

Definition yearRow (p : Params) (k : nat) : Row :=
  let m := (12 * k)%nat in
  mkRow (Math_floor (ageAt p (Z.of_nat m))) (balAt p m)
    (balAt p m / deflator p (Z.of_nat m)).

(** The number of iterations, as a natural number. *)
Definition nmonths (p : Params) : nat := Z.to_nat (months p).

(** The balance after [n] months of saving at a zero rate and without
    fees: what the loop computes before retirement when [mPre], [mFix] and
    [dly] are zero ([flat_balAt]). *)
Definition flat (p : Params) (n : nat) : R :=
  Rmax 0 (startAssets p) + INR n * monthlySave p.

(** The balance after [n] months when every rate and fee is zero and
    contributions start at once: the start balance, plus the contributions
    of the months up to retirement, minus a twelfth of the annual spend
    for each month after it ([linear_rawAt] relates it to the loop). *)
Definition linear (p : Params) (n : nat) : R :=
  Rmax 0 (startAssets p)
  + INR (Nat.min n (Z.to_nat (toRet p))) * monthlySave p
  - INR (n - Z.to_nat (toRet p)) * (annualSpendToday p / 12).

(** ** Parameter sets of the test harness

    [base] and [withSpend] of [runTests]. *)

Definition testBase : Params :=
  mkParams 40 60 50 200000 1500 0.08 0.025 0 0 0 0.002 0.002 0.

Definition testWithSpend : Params :=
  mkParams 40 60 50 200000 1500 0.08 0.025 0.02 60000 0 0.002 0.002 0.

(** ** Parameter sets with a horizon that is not a whole number of years *)



(** Retirement after one year, one month of spending 2400 a year after it,
    2 % inflation. *)
Definition thirteenMonths : Params :=
  mkParams 40 41 (13 / 12) 100 0 0 0 0.02 2400 0 0 0 0.

(** ** Component states for the solver

    All three respect the clamps of the input fields. *)

(** A newborn saving 25 000 a month for a hundred years on top of
    5 000 000, with one year of retirement; no growth. *)
Definition longSaver : AppState :=
  mkAppState 0 100 101 5000000 25000 0 0 0 0 0.

(** One year to retirement and one year of retirement on a start balance
    [a]; no saving and no growth. *)
Definition shortDrawdown (a : R) : AppState :=
  mkAppState 40 41 42 a 0 0 0 0 0 0.


(** The parameter sets without growth, inflation, fees or delay. *)
Definition plain (cur ret hor start save spendToday : R) : Params :=
  mkParams cur ret hor start save 0 0 0 spendToday 0 0 0 0.

(** ** Utilities and scenarios of the component *)

(** [clamp]: on a number [v], [Number(v) || 0] is [v]. *)
Definition clamp (v lo hi : R) : R := Rmin (Rmax v lo) hi.

(** [Math.ceil]. *)
Definition Math_ceil (x : R) : Z := Zceil x.

(** The component state: what the solver reads, and the fields that only
    the scenarios read. *)
Record Inputs : Type := mkInputs {
  solverState : AppState;
  ui_annualSpendToday : R;
  ui_diyFixed : R;
  ui_advisorFeePct : R;
  ui_advisorFixed : R
}.

(** The parameter object that [mk] passes to [simulate]. *)
Definition mkArgs (u : Inputs) (d feeP feeF : R) : Params :=
  let a := solverState u in
  mkParams (ui_currentAge a) (ui_retirementAge a) (ui_horizonYears a)
    (Rmax 0 (ui_initialAmount a)) (ui_monthlySave a)
    (Rmax 0 (ui_returnPa a) / 100) (ui_postRetRealPa a / 100)
    (Rmax 0 (ui_inflationPa a) / 100) (Rmax 0 (ui_annualSpendToday u)) d
    (Rmax 0 feeP / 100) (Rmax 0 feeP / 100) (Rmax 0 feeF).

Definition mk (u : Inputs) (d feeP feeF : R) : Result :=
  simulate (mkArgs u d feeP feeF).

Definition comp_now (u : Inputs) : Result :=
  mk u 0 (ui_diyFeePct (solverState u)) 0.
Definition comp_delay (u : Inputs) : Result :=
  mk u (Rmax 0 (ui_delayYears (solverState u)))
    (ui_diyFeePct (solverState u)) 0.
Definition fees_diy (u : Inputs) : Result :=
  mk u 0 (ui_diyFeePct (solverState u)) (ui_diyFixed u).
Definition fees_advisor (u : Inputs) : Result :=
  mk u 0 (ui_advisorFeePct u) (ui_advisorFixed u).

(** [rows.find(f)] is [List.find]; [a || b] on rows that may be
    [undefined] keeps the first one that is defined. *)
Definition orElse {A : Type} (a b : option A) : option A :=
  match a with
  | Some _ => a
  | None => b
  end.

(** [rows[rows.length - 1]], [undefined] on the empty array. *)
Definition lastRow (rs : list Row) : option Row :=
  match rev rs with
  | r :: _ => Some r
  | [] => None
  end.

Definition atRet (retirementAge : R) (rs : list Row) : option Row :=
  orElse (find (fun r => Reqb (IZR (age r)) retirementAge) rs)
    (orElse (find (fun r => Rltb retirementAge (IZR (age r))) rs)
       (lastRow rs)).

(** [row?.nominal || 0]. *)
Definition nominalOr0 (o : option Row) : R :=
  match o with
  | Some r => nominal r
  | None => 0
  end.

Definition atRet_of (u : Inputs) (t : Result) : option Row :=
  atRet (ui_retirementAge (solverState u)) (rows t).

Definition costOfDelayAtRet (u : Inputs) : R :=
  Rmax 0 (nominalOr0 (atRet_of u (comp_now u))
          - nominalOr0 (atRet_of u (comp_delay u))).

Definition feeDragAtRet (u : Inputs) : R :=
  Rmax 0 (nominalOr0 (atRet_of u (fees_diy u))
          - nominalOr0 (atRet_of u (fees_advisor u))).

Definition feeDragAtHorizon (u : Inputs) : R :=
  Rmax 0 (endNom (fees_diy u) - endNom (fees_advisor u)).

Definition feeDragRetPct (u : Inputs) : Z :=
  if Rltb 0 (nominalOr0 (atRet_of u (fees_diy u)))
  then Math_round
         (feeDragAtRet u / nominalOr0 (atRet_of u (fees_diy u)) * 100)
  else 0%Z.

Definition feeDragHznPct (u : Inputs) : Z :=
  if Rltb 0 (endNom (fees_diy u))
  then Math_round (feeDragAtHorizon u / endNom (fees_diy u) * 100)
  else 0%Z.

(** ** The ticks of the age axis *)

(** [for (let a = startAge; a <= endAge; a += step) arr.push(a)], run for
    at most [fuel] iterations; [ticksLoop_fuel] shows that
    [endAge - a + 1] of them are enough when [step >= 1]. *)
Fixpoint ticksLoop (step endAge : Z) (fuel : nat) (a : Z) : list Z :=
  match fuel with
  | O => []
  | S fuel' =>
      if (a <=? endAge)%Z
      then a :: ticksLoop step endAge fuel' (a + step)%Z
      else []
  end.

(** [arr[arr.length - 1] !== endAge], true on the empty array. *)
Definition lastIsNot (arr : list Z) (endAge : Z) : bool :=
  match rev arr with
  | z :: _ => negb (z =? endAge)%Z
  | [] => true
  end.

Definition ticksStep (startAge endAge : Z) : Z :=
  let span := Z.max 1 (endAge - startAge) in
  Z.max 1 (Math_ceil (IZR span / 12)).

Definition ageTicks (startAge endAge : Z) : list Z :=
  let step := ticksStep startAge endAge in
  let arr :=
    ticksLoop step endAge (Z.to_nat (endAge - startAge + 1)) startAge in
  if lastIsNot arr endAge then arr ++ [endAge] else arr.

(** The initial state of the component, from its [useState] calls. *)
Definition defaultInputs : Inputs :=
  mkInputs (mkAppState 40 60 90 200000 1500 8 2.5 0 3 0.2) 60000 0 1.2 2000.

(** The index, among the rows of [simulate p], of the row that [atRet]
    picks for a retirement age ([atRet_simulate]). *)
Definition retIndex (p : Params) (retAge : R) : nat :=
  Z.to_nat (Z.min (Z.of_nat (nmonths p / 12))
              (Z.max 0 (Math_ceil retAge - Math_floor (currentAge p)))).

(** ** The handlers of the three age inputs

    [onChange] of the "Current Age", "Retirement Age" and "Life
    Expectancy" inputs: each clamps the value it receives against the
    other ages of the current state and stores it. *)

Definition setAges (u : AppState) (cur ret life : R) : AppState :=
  mkAppState cur ret life (ui_initialAmount u) (ui_monthlySave u)
    (ui_returnPa u) (ui_postRetRealPa u) (ui_inflationPa u)
    (ui_delayYears u) (ui_diyFeePct u).

Definition onCurrentAge (u : AppState) (v : R) : AppState :=
  setAges u (clamp v 0 (ui_retirementAge u - 1)) (ui_retirementAge u)
    (ui_lifeExpectancy u).

Definition onRetirementAge (u : AppState) (v : R) : AppState :=
  setAges u (ui_currentAge u) (clamp v (ui_currentAge u + 1) 100)
    (ui_lifeExpectancy u).

Definition onLifeExpectancy (u : AppState) (v : R) : AppState :=
  setAges u (ui_currentAge u) (ui_retirementAge u)
    (clamp v (ui_retirementAge u + 1) 110).

(** The order of the ages that the handlers keep ([X18]). *)
Definition agesOrdered (u : AppState) : Prop :=
  0 <= ui_currentAge u /\
  ui_currentAge u + 1 <= ui_retirementAge u /\
  ui_retirementAge u <= 100.

(** ** The client name in the file name of the export

    [client.replace(/[^a-z0-9]+/gi, "_")] of [exportPDF].  A string is the
    list of its UTF-16 code units; without the [u] flag the class
    [[a-z0-9]] under [i] holds exactly the ASCII letters and digits. *)

Definition isAlnum (c : N) : bool :=
  ((48 <=? c) && (c <=? 57) || (65 <=? c) && (c <=? 90)
   || (97 <=? c) && (c <=? 122))%N.

Definition underscore : N := 95%N.

(** Every maximal run of code units outside the class becomes one
    underscore; [inRun] tells that the run in progress has been
    replaced already. *)
Fixpoint replaceRuns (inRun : bool) (s : list N) : list N :=
  match s with
  | [] => []
  | c :: s' =>
      if isAlnum c then c :: replaceRuns false s'
      else if inRun then replaceRuns true s'
      else underscore :: replaceRuns true s'
  end.

Definition sanitizeClient (client : list N) : list N :=
  replaceRuns false client.

(** No two neighbours are both underscores. *)
Fixpoint noDoubleUnderscore (s : list N) : bool :=
  match s with
  | a :: (b :: _) as t =>
      negb ((a =? underscore)%N && (b =? underscore)%N)
      && noDoubleUnderscore t
  | _ => true
  end.

(** ** The rows of the chart

    [chartRows] merges the rows of two scenarios by age in a [Map] and
    sorts the merged rows by age.  A [Map] is the list of its entries in
    insertion order; [set] on a key that is present replaces the value in
    place.  A field that an object does not have is [None]. *)

Record ChartRow : Type := mkChartRow {
  c_age : Z;
  baseNominal : option R;
  baseReal : option R;
  compareNominal : option R
}.

Fixpoint mapSet (k : Z) (v : ChartRow) (m : list (Z * ChartRow))
  : list (Z * ChartRow) :=
  match m with
  | [] => [(k, v)]
  | (k', v') :: m' =>
      if (k' =? k)%Z then (k', v) :: m' else (k', v') :: mapSet k v m'
  end.

Fixpoint mapGet (k : Z) (m : list (Z * ChartRow)) : option ChartRow :=
  match m with
  | [] => None
  | (k', v') :: m' => if (k' =? k)%Z then Some v' else mapGet k m'
  end.

(** The callback of [A.forEach]. *)
Definition setBase (m : list (Z * ChartRow)) (r : Row) : list (Z * ChartRow) :=
  mapSet (age r) (mkChartRow (age r) (Some (nominal r)) (Some (real r)) None) m.

(** [{ ...p, compareNominal: r.nominal }]. *)
Definition withCompare (p : ChartRow) (r : Row) : ChartRow :=
  mkChartRow (c_age p) (baseNominal p) (baseReal p) (Some (nominal r)).

(** The callback of [B.forEach]. *)
Definition setCompare (m : list (Z * ChartRow)) (r : Row)
  : list (Z * ChartRow) :=
  let p :=
    match mapGet (age r) m with
    | Some p => p
    | None => mkChartRow (age r) None None None
    end in
  mapSet (age r) (withCompare p r) m.

(** [sort((x, y) => x.age - y.age)], a stable sort: insertion sort. *)
Fixpoint insertByAge (x : ChartRow) (l : list ChartRow) : list ChartRow :=
  match l with
  | [] => [x]
  | y :: l' =>
      if (c_age x <=? c_age y)%Z then x :: y :: l'
      else y :: insertByAge x l'
  end.

Definition sortByAge (l : list ChartRow) : list ChartRow :=
  fold_right insertByAge [] l.

Definition chartRows (A B : list Row) : list ChartRow :=
  let map0 := fold_left setBase A [] in
  let map1 := fold_left setCompare B map0 in
  sortByAge (map snd map1).

(** What the two callbacks keep: distinct keys, each the age of its
    value. *)
Definition chartMapOk (m : list (Z * ChartRow)) : Prop :=
  NoDup (map fst m) /\ Forall (fun e => c_age (snd e) = fst e) m.

(** The chart row of two rows of the same age, one of each scenario. *)
Definition mergedRow (ab : Row * Row) : ChartRow :=
  mkChartRow (age (fst ab)) (Some (nominal (fst ab))) (Some (real (fst ab)))
    (Some (nominal (snd ab))).

(** ** Variants of a parameter set

    [runTests] compares [base] with the same object under another delay
    ([delayed]) and under other fees ([higherFees]); [mk] builds its
    scenarios the same way. *)

Definition withDelay (p : Params) (d : R) : Params :=
  mkParams (currentAge p) (retirementAge p) (horizonYears p) (startAssets p)
    (monthlySave p) (preAnnualGross p) (postRealAnnualGross p)
    (inflationAnnual p) (annualSpendToday p) d (feeAnnualPre p)
    (feeAnnualPost p) (fixedFeeAnnual p).

Definition withFees (p : Params) (feePre feePost feeFixed : R) : Params :=
  mkParams (currentAge p) (retirementAge p) (horizonYears p) (startAssets p)
    (monthlySave p) (preAnnualGross p) (postRealAnnualGross p)
    (inflationAnnual p) (annualSpendToday p) (delayYears p) feePre feePost
    feeFixed.

(** ** Proof tools *)

(** Decides an equation or inequality between [Rmax] expressions of
    literals by cases on the comparisons. *)
Ltac solve_Rmax :=
  unfold Rmax;
  repeat match goal with
         | |- context [Rle_dec ?a ?b] => destruct (Rle_dec a b)
         end;
  lra.

(** * Properties *)

(** ** Comparisons and rounding *)

Lemma Rleb_true (x y : R) : Rleb x y = true <-> x <= y.
Proof. unfold Rleb; destruct (Rle_dec x y); split; auto; discriminate. Qed.

Lemma Rleb_false (x y : R) : Rleb x y = false <-> y < x.
Proof.
  unfold Rleb; destruct (Rle_dec x y); split; intros; try discriminate; lra.
Qed.

Lemma Rltb_true (x y : R) : Rltb x y = true <-> x < y.
Proof. unfold Rltb; destruct (Rlt_dec x y); split; auto; discriminate. Qed.

Lemma Rltb_false (x y : R) : Rltb x y = false <-> y <= x.
Proof.
  unfold Rltb; destruct (Rlt_dec x y); split; intros; try discriminate; lra.
Qed.

Lemma Reqb_true (x y : R) : Reqb x y = true <-> x = y.
Proof. unfold Reqb; destruct (Req_dec_T x y); split; auto; discriminate. Qed.

Lemma Reqb_false (x y : R) : Reqb x y = false <-> x <> y.
Proof.
  unfold Reqb; destruct (Req_dec_T x y); split; intros; congruence.
Qed.

Lemma Math_round_IZR (z : Z) : Math_round (IZR z) = z.
Proof.
  unfold Math_round. apply Zfloor_eq. lra.
Qed.

Lemma Math_round_eq (z : Z) (x : R) :
  IZR z - 1 / 2 <= x < IZR z + 1 / 2 -> Math_round x = z.
Proof.
  intros H. unfold Math_round. apply Zfloor_eq. lra.
Qed.

Lemma Math_round_bound (x : R) :
  x - 1 / 2 < IZR (Math_round x) <= x + 1 / 2.
Proof.
  unfold Math_round. pose proof (Zfloor_bound (x + 1 / 2)). lra.
Qed.

(** ** The loop, month by month *)

Section LoopFacts.

Variable p : Params.

Lemma loop_add (a b : nat) (m : Z) (st : State) :
  loop p (a + b) m st = loop p b (m + Z.of_nat a) (loop p a m st).
Proof.
  revert m st. induction a as [|a IH]; intros m st.
  - simpl. now rewrite Z.add_0_r.
  - cbn [Nat.add loop]. rewrite IH. f_equal. lia.
Qed.

Lemma stateAt_0 : stateAt p 0 = init p.
Proof. reflexivity. Qed.

Lemma stateAt_S (n : nat) :
  stateAt p (S n) = step p (Z.of_nat (S n)) (stateAt p n).
Proof.
  unfold stateAt. replace (S n) with (n + 1)%nat at 1 by lia.
  rewrite loop_add. cbn [loop]. f_equal. lia.
Qed.

Lemma simulate_state :
  simulate p =
  let st := stateAt p (nmonths p) in
  mkResult (acc st) (bal st) (lastReal (acc st) (bal st))
    (if truthyR (dep st) then option_map Math_floor (dep st) else None)
    (dep st).
Proof. reflexivity. Qed.

Lemma nmonths_pos : (1 <= nmonths p)%nat.
Proof. unfold nmonths, months. lia. Qed.

(** The clamp: the new balance is the positive part of the raw one. *)
Lemma balAt_S (n : nat) : balAt p (S n) = Rmax 0 (rawAt p (S n)).
Proof.
  unfold balAt. rewrite stateAt_S. unfold step, rawAt. cbn [bal pred].
  fold (balAt p n).
  set (b := rawBalance p (Z.of_nat (S n)) (balAt p n)).
  unfold Rltb. destruct (Rlt_dec b 0) as [H|H].
  - rewrite Rmax_left; lra.
  - rewrite Rmax_right; lra.
Qed.

Lemma balAt_0 : balAt p 0 = Rmax 0 (startAssets p).
Proof. reflexivity. Qed.

Lemma balAt_nonneg (n : nat) : 0 <= balAt p n.
Proof.
  destruct n; [rewrite balAt_0 | rewrite balAt_S]; apply Rmax_l.
Qed.


End LoopFacts.

(** ** The rows *)

Section RowFacts.

Variable p : Params.

Lemma acc_S (n : nat) :
  acc (stateAt p (S n)) =
  if (S n mod 12 =? 0)%nat
  then acc (stateAt p n) ++ [yearRow p (S n / 12)]
  else acc (stateAt p n).
Proof.
  rewrite stateAt_S. unfold step. cbn [acc].
  rewrite Z.rem_mod_nonneg by lia.
  replace (Z.of_nat (S n) mod 12)%Z with (Z.of_nat (S n mod 12))
    by (rewrite Nat2Z.inj_mod; reflexivity).
  destruct (S n mod 12 =? 0)%nat eqn:E.
  - apply Nat.eqb_eq in E.
    replace (Z.of_nat (S n mod 12) =? 0)%Z with true
      by (symmetry; apply Z.eqb_eq; lia).
    f_equal. unfold yearRow.
    assert (Hk : (12 * (S n / 12) = S n)%nat).
    { pose proof (Nat.div_mod_eq (S n) 12). lia. }
    rewrite Hk. unfold balAt. rewrite stateAt_S. unfold step. cbn [bal].
    reflexivity.
  - apply Nat.eqb_neq in E.
    replace (Z.of_nat (S n mod 12) =? 0)%Z with false
      by (symmetry; apply Z.eqb_neq; lia).
    reflexivity.
Qed.

(** The rows after [n] months: the initial one, then one per completed
    year. *)
Lemma acc_stateAt (n : nat) :
  acc (stateAt p n) = initRow p :: map (yearRow p) (seq 1 (n / 12)).
Proof.
  induction n as [|n IH].
  - reflexivity.
  - rewrite acc_S, IH.
    pose proof (Nat.div_mod_eq (S n) 12) as HS.
    pose proof (Nat.div_mod_eq n 12) as Hn.
    pose proof (Nat.mod_upper_bound (S n) 12) as HSb.
    pose proof (Nat.mod_upper_bound n 12) as Hnb.
    destruct (S n mod 12 =? 0)%nat eqn:E.
    + apply Nat.eqb_eq in E.
      assert (Hq : (S n / 12 = S (n / 12))%nat) by lia.
      rewrite Hq, seq_S, map_app. reflexivity.
    + apply Nat.eqb_neq in E.
      assert (Hq : (S n / 12 = n / 12)%nat) by lia.
      now rewrite Hq.
Qed.

Lemma lastReal_snoc (rs : list Row) (r : Row) (b : R) :
  lastReal (rs ++ [r]) b = real r.
Proof. unfold lastReal. now rewrite rev_app_distr. Qed.

(** What [endReal] reads: the row of the last completed year, or the
    initial row when no year was completed. *)
Lemma lastReal_stateAt (n : nat) (b : R) :
  lastReal (acc (stateAt p n)) b =
  if (n / 12 =? 0)%nat then Rmax 0 (startAssets p)
  else real (yearRow p (n / 12)).
Proof.
  rewrite acc_stateAt. destruct (n / 12)%nat as [|k] eqn:E.
  - reflexivity.
  - cbn [Nat.eqb]. rewrite seq_S, map_app. cbn [map].
    change (initRow p :: map (yearRow p) (seq 1 k) ++ [yearRow p (1 + k)])
      with ((initRow p :: map (yearRow p) (seq 1 k)) ++ [yearRow p (1 + k)]).
    now rewrite lastReal_snoc.
Qed.

End RowFacts.

(** ** The depletion age *)

Section DepFacts.

Variable p : Params.

Lemma dep_S (n : nat) :
  dep (stateAt p (S n)) =
  if Rleb (rawAt p (S n)) 0 && negb (truthyR (dep (stateAt p n)))
  then Some (ageAt p (Z.of_nat (S n)))
  else dep (stateAt p n).
Proof. rewrite stateAt_S. reflexivity. Qed.

Hypothesis Hage : 0 <= currentAge p.

Lemma ageAt_pos (m : nat) : (1 <= m)%nat -> 0 < ageAt p (Z.of_nat m).
Proof.
  intros Hm. unfold ageAt.
  assert (1 <= IZR (Z.of_nat m)) by (apply IZR_le; lia). lra.
Qed.

Lemma truthyR_ageAt (m : nat) :
  (1 <= m)%nat -> truthyR (Some (ageAt p (Z.of_nat m))) = true.
Proof.
  intros Hm. unfold truthyR, truthy.
  apply negb_true_iff, Reqb_false. pose proof (ageAt_pos m Hm). lra.
Qed.

(** Either no month so far had a raw balance at or below zero, or [dep]
    is the age of the first month that had one. *)
Lemma dep_cases (n : nat) :
  (dep (stateAt p n) = None /\
   forall k, (1 <= k <= n)%nat -> 0 < rawAt p k) \/
  (exists m, (1 <= m <= n)%nat /\
     dep (stateAt p n) = Some (ageAt p (Z.of_nat m)) /\
     rawAt p m <= 0 /\
     forall k, (1 <= k < m)%nat -> 0 < rawAt p k).
Proof.
  induction n as [|n IH].
  - left. split; [reflexivity | intros k Hk; lia].
  - rewrite dep_S. destruct IH as [[Hd Hall] | (m & Hm & Hd & Hneg & Hfirst)].
    + rewrite Hd. cbn [truthyR truthy negb]. rewrite andb_true_r.
      destruct (Rleb (rawAt p (S n)) 0) eqn:E.
      * apply Rleb_true in E. right. exists (S n).
        repeat split; try lia; auto.
        intros k Hk. apply Hall. lia.
      * apply Rleb_false in E. left. split; [reflexivity|].
        intros k Hk. destruct (Nat.eq_dec k (S n)) as [->|Hne]; auto.
        apply Hall. lia.
    + rewrite Hd, truthyR_ageAt by lia. cbn [negb]. rewrite andb_false_r.
      right. exists m. repeat split; try lia; auto.
Qed.

Lemma dep_none (n : nat) :
  (forall k, (1 <= k <= n)%nat -> 0 < rawAt p k) ->
  dep (stateAt p n) = None.
Proof.
  intros Hall. destruct (dep_cases n) as [[Hd _] | (m & Hm & _ & Hneg & _)].
  - exact Hd.
  - specialize (Hall m Hm). lra.
Qed.


End DepFacts.

(** ** Trajectories given in closed form *)

Section Certificates.

Variable p : Params.
Variable f : nat -> R.

Hypothesis f_0 : f 0%nat = Rmax 0 (startAssets p).

(** If [f] follows the recurrence of the loop and stays non-negative up
    to month [n], it is the balance there. *)
Lemma traj_bal (n : nat) :
  (forall k, (1 <= k <= n)%nat ->
     rawBalance p (Z.of_nat k) (f (pred k)) = f k /\ 0 <= f k) ->
  balAt p n = f n.
Proof.
  induction n as [|n IH]; intros H.
  - now rewrite balAt_0.
  - rewrite balAt_S. unfold rawAt. cbn [pred].
    rewrite IH by (intros k Hk; apply H; lia).
    destruct (H (S n)) as [Hr Hp]; [lia|]. cbn [pred] in Hr.
    rewrite Hr. apply Rmax_right, Hp.
Qed.

Lemma traj_raw (n : nat) :
  (1 <= n)%nat ->
  (forall k, (1 <= k < n)%nat ->
     rawBalance p (Z.of_nat k) (f (pred k)) = f k /\ 0 <= f k) ->
  rawBalance p (Z.of_nat n) (f (pred n)) = f n ->
  rawAt p n = f n.
Proof.
  intros Hn H Hr. unfold rawAt.
  rewrite (traj_bal (pred n)) by (intros k Hk; apply H; lia).
  exact Hr.
Qed.

End Certificates.

(** ** Rates and cash flows of one month *)

Lemma Rpower_base_1 (y : R) : Rpower 1 y = 1.
Proof. unfold Rpower. rewrite ln_1, Rmult_0_r. apply exp_0. Qed.

Lemma Rpower_twelfth (g : R) : 0 < g -> Rpower g (1 / 12) ^ 12 = g.
Proof.
  intros Hg.
  rewrite <- Rpower_pow by (unfold Rpower; apply exp_pos).
  rewrite Rpower_mult.
  replace (1 / 12 * INR 12) with 1 by (simpl; lra).
  now apply Rpower_1.
Qed.

(** Bernoulli's inequality, strict from the second power on. *)
Lemma bernoulli_le (n : nat) (y : R) : -1 <= y -> 1 + INR n * y <= (1 + y) ^ n.
Proof.
  intros Hy. induction n as [|n IH].
  - simpl. lra.
  - rewrite S_INR. cbn [pow].
    assert (0 <= INR n) by apply pos_INR. nra.
Qed.

Lemma bernoulli_lt (n : nat) (y : R) :
  -1 <= y -> y <> 0 -> 1 + INR (S (S n)) * y < (1 + y) ^ S (S n).
Proof.
  intros Hy Hne.
  pose proof (bernoulli_le (S n) y Hy) as H.
  rewrite (S_INR (S n)). change ((1 + y) ^ S (S n)) with ((1 + y) * (1 + y) ^ S n).
  assert (Ha : 0 < INR (S n)) by (apply lt_0_INR; lia).
  assert (Hsq : 0 < y * y) by (destruct (Rtotal_order y 0) as [|[|]]; nra).
  set (P := (1 + y) ^ S n) in *. set (a := INR (S n)) in *.
  assert (0 < a * (y * y)) by (apply Rmult_lt_0_compat; assumption).
  nra.
Qed.

Section MonthFacts.

Variable p : Params.

Lemma preNet_floor : -0.99 <= preNet p.
Proof. apply Rmax_l. Qed.

Lemma postNet_floor : -0.99 <= postNet p.
Proof. apply Rmax_l. Qed.

Lemma mPre_compound : (1 + mPre p) ^ 12 = 1 + preNet p.
Proof.
  unfold mPre, Math_pow. pose proof preNet_floor.
  replace (1 + (Rpower (1 + preNet p) (1 / 12) - 1))
    with (Rpower (1 + preNet p) (1 / 12)) by lra.
  apply Rpower_twelfth. lra.
Qed.

Lemma mPost_compound : (1 + mPost p) ^ 12 = 1 + postNet p.
Proof.
  unfold mPost, Math_pow. pose proof postNet_floor.
  replace (1 + (Rpower (1 + postNet p) (1 / 12) - 1))
    with (Rpower (1 + postNet p) (1 / 12)) by lra.
  apply Rpower_twelfth. lra.
Qed.

Lemma mInfl_compound :
  -1 < inflationAnnual p -> (1 + mInfl p) ^ 12 = 1 + inflationAnnual p.
Proof.
  intros H. unfold mInfl, Math_pow.
  replace (1 + (Rpower (1 + inflationAnnual p) (1 / 12) - 1))
    with (Rpower (1 + inflationAnnual p) (1 / 12)) by lra.
  apply Rpower_twelfth. lra.
Qed.

Lemma one_plus_mInfl_pos : 0 < 1 + mInfl p.
Proof.
  unfold mInfl, Math_pow.
  replace (1 + (Rpower (1 + inflationAnnual p) (1 / 12) - 1))
    with (Rpower (1 + inflationAnnual p) (1 / 12)) by lra.
  unfold Rpower. apply exp_pos.
Qed.

(** A monthly rate that is a twelfth of the annual one only when both
    are zero. *)
Lemma geometric_not_simple (a r : R) :
  -1 < a -> -1 < r -> (1 + r) ^ 12 = 1 + a -> r = a / 12 -> a = 0.
Proof.
  intros Ha Hr Hc Heq.
  destruct (Req_dec_T a 0) as [|Hne]; [assumption|exfalso].
  assert (Hy : a / 12 <> 0) by lra.
  pose proof (bernoulli_lt 10 (a / 12) ltac:(lra) Hy) as HB.
  rewrite <- Heq in HB.
  replace (INR 12) with 12 in HB by (simpl; lra).
  rewrite Hc in HB. lra.
Qed.

Lemma spend_cases (m : Z) :
  spend p m =
  if (m <=? toRet p)%Z then 0
  else annualSpendToday p / 12 *
       Rpower (1 + mInfl p) (IZR (m - toRet p)).
Proof.
  unfold spend, msr, Math_pow.
  destruct (m <=? toRet p)%Z eqn:E.
  - apply Z.leb_le in E.
    replace (Z.max 0 (m - toRet p)) with 0%Z by lia. reflexivity.
  - apply Z.leb_gt in E.
    replace (Z.max 0 (m - toRet p)) with (m - toRet p)%Z by lia.
    replace (0 <? m - toRet p)%Z with true
      by (symmetry; apply Z.ltb_lt; lia).
    reflexivity.
Qed.

Lemma rawBalance_pre (m : Z) (b : R) :
  (m <= toRet p)%Z ->
  rawBalance p m b =
  b * (1 + mPre p) + (if (dly p <? m)%Z then monthlySave p else 0) - mFix p.
Proof.
  intros H. unfold rawBalance, rate, contribution, pre.
  rewrite spend_cases.
  replace (m <=? toRet p)%Z with true by (symmetry; apply Z.leb_le; lia).
  cbn [andb]. lra.
Qed.

Lemma rawBalance_post (m : Z) (b : R) :
  (toRet p < m)%Z ->
  rawBalance p m b =
  b * (1 + mPost p)
  - annualSpendToday p / 12 * Rpower (1 + mInfl p) (IZR (m - toRet p))
  - mFix p.
Proof.
  intros H. unfold rawBalance, rate, contribution, pre.
  rewrite spend_cases.
  replace (m <=? toRet p)%Z with false by (symmetry; apply Z.leb_gt; lia).
  cbn [andb]. lra.
Qed.

End MonthFacts.

(** ** Withdrawals *)

Lemma Rpower_Z_pow (x : R) (k : Z) :
  0 < x -> (0 <= k)%Z -> Rpower x (IZR k) = x ^ Z.to_nat k.
Proof.
  intros Hx Hk. rewrite <- Rpower_pow by assumption.
  rewrite INR_IZR_INZ, Z2Nat.id by assumption. reflexivity.
Qed.

(** C9.  In month [m = n + 1] the loop subtracts a withdrawal only when [m]
    exceeds [toRet]; the withdrawal is [annualSpendToday / 12] times
    [1 + mInfl] to the power [m - toRet], the months since retirement
    began, and it enters the month's balance as
    [bal * (1 + r) + c - sp - mFix], clamped at zero. *)
Theorem C9_withdrawal_since_retirement (p : Params) (n : nat) :
  let m := Z.of_nat (S n) in
  spend p m =
    (if (m <=? toRet p)%Z then 0
     else annualSpendToday p / 12 * (1 + mInfl p) ^ Z.to_nat (m - toRet p)) /\
  rawAt p (S n) =
    balAt p n * (1 + rate p m) + contribution p m - spend p m - mFix p /\
  balAt p (S n) = Rmax 0 (rawAt p (S n)).
Proof.
  intros m. split; [|split].
  - rewrite spend_cases. destruct (m <=? toRet p)%Z eqn:E; [reflexivity|].
    apply Z.leb_gt in E.
    rewrite Rpower_Z_pow by (try apply one_plus_mInfl_pos; lia).
    reflexivity.
  - reflexivity.
  - apply balAt_S.
Qed.

(** ** Rates *)

(** C8.  The net annual rates are floored at -0.99, the post-retirement
    real rate is first turned into a nominal one with
    [(1 + real) * (1 + inflation) - 1], and each monthly rate is the
    geometric twelfth of its annual rate: twelve months of it compound to
    the annual rate, and it is a twelfth of the annual rate only when both
    are zero.  Every month of the loop grows the balance by the monthly
    rate of its phase. *)
Theorem C8_rates (p : Params) (Hinfl : -1 < inflationAnnual p) :
  preNet p = Rmax (-0.99) (preAnnualGross p - feeAnnualPre p) /\
  postNet p =
    Rmax (-0.99)
      ((1 + postRealAnnualGross p) * (1 + inflationAnnual p) - 1
       - feeAnnualPost p) /\
  (mPre p = Rpower (1 + preNet p) (1 / 12) - 1 /\
   mPost p = Rpower (1 + postNet p) (1 / 12) - 1 /\
   mInfl p = Rpower (1 + inflationAnnual p) (1 / 12) - 1) /\
  ((1 + mPre p) ^ 12 = 1 + preNet p /\
   (1 + mPost p) ^ 12 = 1 + postNet p /\
   (1 + mInfl p) ^ 12 = 1 + inflationAnnual p) /\
  ((mPre p = preNet p / 12 -> preNet p = 0) /\
   (mPost p = postNet p / 12 -> postNet p = 0) /\
   (mInfl p = inflationAnnual p / 12 -> inflationAnnual p = 0)) /\
  forall n : nat,
    let m := Z.of_nat (S n) in
    rawAt p (S n) =
      balAt p n * (1 + (if (m <=? toRet p)%Z then mPre p else mPost p))
      + contribution p m - spend p m - mFix p.
Proof.
  pose proof (preNet_floor p) as Hpre.
  pose proof (postNet_floor p) as Hpost.
  pose proof (mPre_compound p) as Cpre.
  pose proof (mPost_compound p) as Cpost.
  pose proof (mInfl_compound p Hinfl) as Cinfl.
  assert (Mpre : -1 < mPre p).
  { unfold mPre, Math_pow, Rpower.
    pose proof (exp_pos (1 / 12 * ln (1 + preNet p))). lra. }
  assert (Mpost : -1 < mPost p).
  { unfold mPost, Math_pow, Rpower.
    pose proof (exp_pos (1 / 12 * ln (1 + postNet p))). lra. }
  pose proof (one_plus_mInfl_pos p) as Minfl.
  repeat split; try reflexivity; try assumption.
  - apply geometric_not_simple; (assumption || lra).
  - apply geometric_not_simple; (assumption || lra).
  - apply geometric_not_simple; (assumption || lra).
Qed.

Lemma C8_rates_witness :
  -1 < inflationAnnual testWithSpend /\
  (1 + mInfl testWithSpend) ^ 12 = 1 + inflationAnnual testWithSpend.
Proof.
  assert (H : -1 < inflationAnnual testWithSpend) by (simpl; lra).
  split; [exact H|].
  exact (proj2 (proj2 (proj1 (proj2 (proj2 (proj2
    (C8_rates testWithSpend H))))))).
Defined.

(** ** Non-negativity and the first depletion *)



(** ** The deflator *)

Section DeflatorFacts.

Variable p : Params.

Lemma deflator_no_inflation (m : Z) :
  inflationAnnual p = 0 -> deflator p m = 1.
Proof.
  intros H. unfold deflator, mInfl, Math_pow. rewrite H.
  replace (1 + 0) with 1 by lra. rewrite Rpower_base_1.
  replace (1 + (1 - 1)) with 1 by lra. apply Rpower_base_1.
Qed.

Lemma mInfl_nonneg : 0 <= inflationAnnual p -> 0 <= mInfl p.
Proof.
  intros H. unfold mInfl, Math_pow, Rpower.
  assert (0 <= ln (1 + inflationAnnual p)).
  { destruct H as [H|<-].
    - left. rewrite <- ln_1. apply ln_increasing; lra.
    - replace (1 + 0) with 1 by lra. rewrite ln_1. lra. }
  pose proof (exp_ineq1_le (1 / 12 * ln (1 + inflationAnnual p))). lra.
Qed.

Lemma deflator_ge_1 (m : Z) :
  0 <= inflationAnnual p -> (0 <= m)%Z -> 1 <= deflator p m.
Proof.
  intros H Hm. pose proof (mInfl_nonneg H) as Hi.
  unfold deflator, Math_pow, Rpower.
  assert (0 <= ln (1 + mInfl p)).
  { destruct Hi as [Hi|<-].
    - left. rewrite <- ln_1. apply ln_increasing; lra.
    - replace (1 + 0) with 1 by lra. rewrite ln_1. lra. }
  assert (0 <= IZR m) by (apply IZR_le; assumption).
  pose proof (exp_ineq1_le (IZR m * ln (1 + mInfl p))).
  assert (0 <= IZR m * ln (1 + mInfl p)) by (apply Rmult_le_pos; assumption).
  lra.
Qed.

Lemma deflate_le (m : Z) (b : R) :
  0 <= inflationAnnual p -> (0 <= m)%Z -> 0 <= b -> b / deflator p m <= b.
Proof.
  intros H Hm Hb. pose proof (deflator_ge_1 m H Hm) as Hd.
  assert (Hinv : / deflator p m <= 1).
  { rewrite <- Rinv_1. apply Rinv_le_contravar; lra. }
  assert (0 < / deflator p m) by (apply Rinv_0_lt_compat; lra).
  unfold Rdiv. nra.
Qed.

End DeflatorFacts.

(** ** Months before retirement at a zero rate *)

Section FlatAccumulation.

Variable p : Params.
Hypothesis HmPre : mPre p = 0.
Hypothesis HmFix : mFix p = 0.
Hypothesis Hdly : dly p = 0%Z.
Hypothesis Hsave : 0 <= monthlySave p.

Lemma flat_nonneg (n : nat) : 0 <= flat p n.
Proof.
  unfold flat. pose proof (Rmax_l 0 (startAssets p)).
  pose proof (pos_INR n). nra.
Qed.

Lemma flat_step (k : nat) :
  (1 <= k)%nat -> (Z.of_nat k <= toRet p)%Z ->
  rawBalance p (Z.of_nat k) (flat p (pred k)) = flat p k.
Proof.
  intros Hk Hr. rewrite rawBalance_pre by assumption.
  rewrite HmPre, HmFix, Hdly.
  replace (0 <? Z.of_nat k)%Z with true by (symmetry; apply Z.ltb_lt; lia).
  unfold flat. destruct k as [|k]; [lia|]. cbn [pred]. rewrite S_INR. lra.
Qed.

Lemma flat_balAt (n : nat) :
  (Z.of_nat n <= toRet p)%Z -> balAt p n = flat p n.
Proof.
  intros Hn. apply traj_bal.
  - unfold flat. simpl. lra.
  - intros k Hk. split; [apply flat_step; lia | apply flat_nonneg].
Qed.

End FlatAccumulation.

(** ** Parameters that switch a rate, the fee or the delay off *)

Section ZeroParameters.

Variable p : Params.

Lemma mPre_zero : preAnnualGross p - feeAnnualPre p = 0 -> mPre p = 0.
Proof.
  intros H. unfold mPre, preNet, Math_pow. rewrite H.
  rewrite Rmax_right by lra.
  replace (1 + 0) with 1 by lra. rewrite Rpower_base_1. lra.
Qed.

Lemma mInfl_zero : inflationAnnual p = 0 -> mInfl p = 0.
Proof.
  intros H. unfold mInfl, Math_pow. rewrite H.
  replace (1 + 0) with 1 by lra. rewrite Rpower_base_1. lra.
Qed.

Lemma mPost_zero :
  postRealAnnualGross p = 0 -> inflationAnnual p = 0 -> feeAnnualPost p = 0 ->
  mPost p = 0.
Proof.
  intros H1 H2 H3. unfold mPost, postNet, postNominal, Math_pow.
  rewrite H1, H2, H3.
  replace ((1 + 0) * (1 + 0) - 1 - 0) with 0 by lra.
  rewrite Rmax_right by lra.
  replace (1 + 0) with 1 by lra. rewrite Rpower_base_1. lra.
Qed.

Lemma mFix_zero : fixedFeeAnnual p <= 0 -> mFix p = 0.
Proof.
  intros H. unfold mFix. rewrite Rmax_left by lra. lra.
Qed.

Lemma dly_zero : delayYears p = 0 -> dly p = 0%Z.
Proof.
  intros H. unfold dly. rewrite H, (Math_round_eq 0) by lra. reflexivity.
Qed.

End ZeroParameters.

(** ** The three short horizons *)








Lemma thirteenMonths_toRet : toRet thirteenMonths = 12%Z.
Proof.
  unfold toRet. cbn [thirteenMonths retirementAge currentAge].
  rewrite (Math_round_eq 12) by lra. reflexivity.
Qed.

Lemma thirteenMonths_balAt (n : nat) :
  (n <= 12)%nat -> balAt thirteenMonths n = 100.
Proof.
  intros Hn. rewrite flat_balAt.
  - unfold flat. cbn [thirteenMonths startAssets monthlySave].
    rewrite Rmax_right by lra. lra.
  - apply mPre_zero. simpl. lra.
  - apply mFix_zero. simpl. lra.
  - apply dly_zero. reflexivity.
  - simpl. lra.
  - rewrite thirteenMonths_toRet. lia.
Qed.

(** The thirteenth month: growth and withdrawal both carry the factor
    [1 + mInfl], and the withdrawal is twice the balance. *)
Lemma thirteenMonths_raw13 :
  rawAt thirteenMonths 13 = - 100 * (1 + mInfl thirteenMonths).
Proof.
  unfold rawAt. cbn [pred]. rewrite thirteenMonths_balAt by lia.
  rewrite rawBalance_post by (rewrite thirteenMonths_toRet; lia).
  rewrite thirteenMonths_toRet.
  rewrite (mFix_zero thirteenMonths) by (simpl; lra).
  replace (IZR (Z.of_nat 13 - 12)) with 1 by (simpl; lra).
  rewrite Rpower_1 by apply one_plus_mInfl_pos.
  assert (Hm : mPost thirteenMonths = mInfl thirteenMonths).
  { unfold mPost, mInfl, postNet, postNominal.
    cbn [thirteenMonths postRealAnnualGross inflationAnnual feeAnnualPost].
    rewrite Rmax_right by lra.
    replace (1 + ((1 + 0) * (1 + 0.02) - 1 - 0)) with (1 + 0.02) by lra.
    reflexivity. }
  rewrite Hm. cbn [thirteenMonths annualSpendToday]. lra.
Qed.

(** ** The final real balance *)


Lemma endReal_cases (p : Params) :
  endReal (simulate p) =
  if (nmonths p <? 12)%nat then Rmax 0 (startAssets p)
  else balAt p (12 * (nmonths p / 12)) /
       deflator p (Z.of_nat (12 * (nmonths p / 12))).
Proof.
  rewrite simulate_state. cbn [endReal]. rewrite lastReal_stateAt.
  pose proof (Nat.div_mod_eq (nmonths p) 12) as Hd.
  pose proof (Nat.mod_upper_bound (nmonths p) 12) as Hb.
  destruct (nmonths p <? 12)%nat eqn:E.
  - apply Nat.ltb_lt in E.
    replace (nmonths p / 12 =? 0)%nat with true
      by (symmetry; apply Nat.eqb_eq; lia).
    reflexivity.
  - apply Nat.ltb_ge in E.
    replace (nmonths p / 12 =? 0)%nat with false
      by (symmetry; apply Nat.eqb_neq; lia).
    reflexivity.
Qed.

Lemma endNom_balAt (p : Params) : endNom (simulate p) = balAt p (nmonths p).
Proof. reflexivity. Qed.

(** When the month count is a multiple of twelve the last row is pushed in
    the last month, so [endReal] is [endNom] deflated. *)
Lemma endReal_whole_years (p : Params) :
  (nmonths p mod 12 = 0)%nat ->
  endReal (simulate p) =
  endNom (simulate p) / deflator p (Z.of_nat (nmonths p)).
Proof.
  intros Hm. rewrite endReal_cases, endNom_balAt.
  pose proof (Nat.div_mod_eq (nmonths p) 12) as Hd.
  pose proof (nmonths_pos p) as Hp.
  replace (nmonths p <? 12)%nat with false
    by (symmetry; apply Nat.ltb_ge; lia).
  replace (12 * (nmonths p / 12))%nat with (nmonths p) by lia.
  reflexivity.
Qed.











(** ** Scenarios without growth, inflation or fees *)

Section ZeroRates.

Variable p : Params.
Hypothesis HmPre : mPre p = 0.
Hypothesis HmPost : mPost p = 0.
Hypothesis HmInfl : mInfl p = 0.
Hypothesis HmFix : mFix p = 0.
Hypothesis Hdly : dly p = 0%Z.

Lemma toRet_nonneg : (0 <= toRet p)%Z.
Proof. unfold toRet. lia. Qed.

Lemma linear_step (k : nat) :
  (1 <= k)%nat ->
  rawBalance p (Z.of_nat k) (linear p (pred k)) = linear p k.
Proof.
  intros Hk. pose proof toRet_nonneg as HT. unfold linear.
  destruct k as [|k]; [lia|]. cbn [pred].
  destruct (Z_le_gt_dec (Z.of_nat (S k)) (toRet p)) as [Hle|Hgt].
  - rewrite rawBalance_pre by assumption. rewrite HmPre, HmFix, Hdly.
    replace (0 <? Z.of_nat (S k))%Z with true by (symmetry; apply Z.ltb_lt; lia).
    replace (Nat.min (S k) (Z.to_nat (toRet p))) with (S k) by lia.
    replace (Nat.min k (Z.to_nat (toRet p))) with k by lia.
    replace (S k - Z.to_nat (toRet p))%nat with 0%nat by lia.
    replace (k - Z.to_nat (toRet p))%nat with 0%nat by lia.
    rewrite S_INR. simpl. lra.
  - rewrite rawBalance_post by lia. rewrite HmPost, HmFix, HmInfl.
    replace (1 + 0) with 1 by lra. rewrite Rpower_base_1.
    replace (Nat.min (S k) (Z.to_nat (toRet p))) with (Z.to_nat (toRet p)) by lia.
    replace (Nat.min k (Z.to_nat (toRet p))) with (Z.to_nat (toRet p)) by lia.
    replace (S k - Z.to_nat (toRet p))%nat with (S (k - Z.to_nat (toRet p)))
      by lia.
    rewrite S_INR. lra.
Qed.

(** While no month has depleted the account, the raw balance is the
    linear one. *)
Lemma linear_rawAt (m : nat) :
  (1 <= m)%nat ->
  (forall k, (1 <= k < m)%nat -> 0 < rawAt p k) ->
  rawAt p m = linear p m.
Proof.
  induction m as [m IH] using lt_wf_ind. intros Hm Hpos.
  apply traj_raw.
  - unfold linear. simpl. lra.
  - assumption.
  - intros k Hk. split; [apply linear_step; lia|].
    rewrite <- IH; try lia.
    + left. apply Hpos. lia.
    + intros j Hj. apply Hpos. lia.
  - apply linear_step. lia.
Qed.

Hypothesis Hage : 0 <= currentAge p.

(** The account lasts when the linear balance is positive up to a month
    [M] whose successor is late enough. *)
Lemma linear_lasts (M : nat) (bound : R) :
  (forall k, (1 <= k <= M)%nat -> 0 < linear p k) ->
  bound <= ageAt p (Z.of_nat (S M)) ->
  match depletedAgeExact (simulate p) with
  | None => True
  | Some d => bound <= d
  end.
Proof.
  intros Hpos Hb. rewrite simulate_state. cbn [depletedAgeExact].
  destruct (dep_cases p Hage (nmonths p))
    as [[Hd _] | (m & Hm & Hd & Hneg & Hfirst)]; rewrite Hd; [exact I|].
  rewrite linear_rawAt in Hneg by (assumption || lia).
  assert (HM : (M < m)%nat).
  { destruct (Nat.lt_ge_cases M m) as [|Hle]; [assumption|].
    specialize (Hpos m ltac:(lia)). lra. }
  unfold ageAt in *.
  assert (IZR (Z.of_nat (S M)) <= IZR (Z.of_nat m)) by (apply IZR_le; lia).
  lra.
Qed.

(** The account does not last when the linear balance has reached zero by
    a month [M] that is too early. *)
Lemma linear_depleted (M : nat) (bound : R) :
  (1 <= M <= nmonths p)%nat ->
  linear p M <= 0 ->
  ageAt p (Z.of_nat M) < bound ->
  exists d, depletedAgeExact (simulate p) = Some d /\ d < bound.
Proof.
  intros HM Hneg Hb. rewrite simulate_state. cbn [depletedAgeExact].
  destruct (dep_cases p Hage (nmonths p))
    as [[_ Hall] | (m & Hm & Hd & _ & Hfirst)].
  - exfalso. pose proof (Hall M HM) as HposM.
    rewrite linear_rawAt in HposM; [lra | lia |].
    intros k Hk. apply Hall. lia.
  - exists (ageAt p (Z.of_nat m)). split; [exact Hd|].
    assert (Hle : (m <= M)%nat).
    { destruct (Nat.le_gt_cases m M) as [|Hgt]; [assumption|exfalso].
      pose proof (Hfirst M ltac:(lia)) as HposM.
      rewrite linear_rawAt in HposM; [lra | lia |].
      intros k Hk. apply Hfirst. lia. }
    unfold ageAt in *.
    assert (IZR (Z.of_nat m) <= IZR (Z.of_nat M)) by (apply IZR_le; lia).
    lra.
Qed.

Lemma linear_never :
  (forall k, (1 <= k <= nmonths p)%nat -> 0 < linear p k) ->
  depletedAgeExact (simulate p) = None.
Proof.
  intros Hpos.
  pose proof (linear_lasts (nmonths p) (ageAt p (Z.of_nat (S (nmonths p))) + 1)
                Hpos) as H.
  rewrite simulate_state in *. cbn [depletedAgeExact] in *.
  destruct (dep_cases p Hage (nmonths p))
    as [[Hd _] | (m & Hm & Hd & Hneg & Hfirst)]; [exact Hd|].
  rewrite linear_rawAt in Hneg by (assumption || lia).
  specialize (Hpos m Hm). lra.
Qed.

(** With a positive start, contributions and spend that are not negative,
    a linear balance that is positive at a month after retirement is
    positive at every month up to it. *)
Lemma linear_pos_upto (M : nat) :
  0 < startAssets p -> 0 <= monthlySave p -> 0 <= annualSpendToday p ->
  0 < linear p M ->
  forall k, (1 <= k <= M)%nat -> 0 < linear p k.
Proof.
  intros Hs Hc Hw HM k Hk. unfold linear in *.
  rewrite Rmax_right in * by lra.
  set (T := Z.to_nat (toRet p)) in *.
  assert (H1 : 0 <= INR (Nat.min k T)) by apply pos_INR.
  destruct (Nat.le_gt_cases k T) as [Hle|Hgt].
  - replace (k - T)%nat with 0%nat by lia. simpl. nra.
  - replace (Nat.min k T) with T by lia.
    assert (HMT : (T < M)%nat) by lia.
    replace (Nat.min M T) with T in HM by lia.
    assert (INR (k - T) <= INR (M - T)) by (apply le_INR; lia).
    assert (0 <= INR T) by apply pos_INR.
    nra.
Qed.

End ZeroRates.

(** ** The bracketing loop *)

Lemma hi0_doubled_below (j : nat) : (j <= 8)%nat -> hi0 * 2 ^ j < max.
Proof.
  intros Hj. unfold hi0, max.
  assert (2 ^ j <= 2 ^ 8) by (apply Rle_pow; [lra | assumption]).
  assert (2 ^ 8 = 256) by (simpl; lra). lra.
Qed.

Lemma hi0_doubled_9 : hi0 * 2 ^ 9 = 51200000.
Proof. unfold hi0. simpl. lra. Qed.

Section BracketFacts.

Variable p : Params.
Variable lifeExpectancy : R.

(** From [hi0 * 2 ^ j] with [9 - j] iterations left, the loop stops at the
    first [hi0 * 2 ^ k] where [lasts] fails, or at [k = 9]. *)
Lemma bracket_from (n j : nat) :
  (n + j = 9)%nat ->
  exists k, (j <= k <= 9)%nat /\
    bracket p lifeExpectancy n (hi0 * 2 ^ j) = hi0 * 2 ^ k /\
    (forall i, (j <= i < k)%nat ->
       lasts p lifeExpectancy (hi0 * 2 ^ i) = true) /\
    ((k < 9)%nat -> lasts p lifeExpectancy (hi0 * 2 ^ k) = false).
Proof.
  revert j. induction n as [|n IH]; intros j Hj.
  - exists j. cbn [bracket]. repeat split; intros; lia.
  - cbn [bracket].
    replace (Rltb (hi0 * 2 ^ j) max) with true
      by (symmetry; apply Rltb_true, hi0_doubled_below; lia).
    rewrite andb_true_r.
    destruct (lasts p lifeExpectancy (hi0 * 2 ^ j)) eqn:E.
    + destruct (IH (S j) ltac:(lia)) as (k & Hk & Hb & Hall & Hstop).
      exists k. split; [lia|]. split; [|split].
      * rewrite <- Hb. f_equal. cbn [pow]. lra.
      * intros i Hi. destruct (Nat.eq_dec i j) as [->|Hne]; [exact E|].
        apply Hall. lia.
      * exact Hstop.
    + exists j. repeat split; intros; (lia || assumption).
Qed.

Lemma bracket_spec :
  exists k, (k <= 9)%nat /\
    bracket p lifeExpectancy 9 hi0 = hi0 * 2 ^ k /\
    (forall i, (i < k)%nat -> lasts p lifeExpectancy (hi0 * 2 ^ i) = true) /\
    ((k < 9)%nat -> lasts p lifeExpectancy (hi0 * 2 ^ k) = false).
Proof.
  destruct (bracket_from 9 0 eq_refl) as (k & Hk & Hb & Hall & Hstop).
  exists k. replace (hi0 * 2 ^ 0) with hi0 in Hb by (simpl; lra).
  repeat split; try lia; auto. intros i Hi. apply Hall. lia.
Qed.

(** Nine iterations are enough: the condition of the [while] is false at
    the value returned, and more fuel returns the same value. *)
Lemma bracket_exit :
  let hi := bracket p lifeExpectancy 9 hi0 in
  lasts p lifeExpectancy hi && Rltb hi max = false.
Proof.
  destruct bracket_spec as (k & Hk & Hb & _ & Hstop). cbn zeta. rewrite Hb.
  destruct (Nat.eq_dec k 9) as [->|Hne].
  - replace (Rltb (hi0 * 2 ^ 9) max) with false; [apply andb_false_r|].
    symmetry. apply Rltb_false. rewrite hi0_doubled_9. unfold max. lra.
  - rewrite Hstop by lia. reflexivity.
Qed.

Lemma bracket_fuel_from (n j extra : nat) :
  (n + j = 9)%nat ->
  bracket p lifeExpectancy (n + extra) (hi0 * 2 ^ j) =
  bracket p lifeExpectancy n (hi0 * 2 ^ j).
Proof.
  revert j. induction n as [|n IH]; intros j Hj.
  - cbn [Nat.add bracket]. assert (j = 9%nat) as -> by lia.
    destruct extra as [|extra]; [reflexivity|]. cbn [bracket].
    replace (Rltb (hi0 * 2 ^ 9) max) with false; [now rewrite andb_false_r|].
    symmetry. apply Rltb_false. rewrite hi0_doubled_9. unfold max. lra.
  - cbn [Nat.add bracket].
    destruct (lasts p lifeExpectancy (hi0 * 2 ^ j) && Rltb (hi0 * 2 ^ j) max);
      [|reflexivity].
    replace (hi0 * 2 ^ j * 2) with (hi0 * 2 ^ S j) by (cbn [pow]; lra).
    apply IH. lia.
Qed.

Lemma bracket_fuel (fuel : nat) :
  (9 <= fuel)%nat ->
  bracket p lifeExpectancy fuel hi0 = bracket p lifeExpectancy 9 hi0.
Proof.
  intros Hf. replace fuel with (9 + (fuel - 9))%nat by lia.
  replace hi0 with (hi0 * 2 ^ 0) by (simpl; lra).
  now apply bracket_fuel_from.
Qed.

(** The bracket is at the ceiling exactly when [lasts] held at the nine
    candidates below it. *)
Lemma bracket_ceiling :
  max <= bracket p lifeExpectancy 9 hi0 <->
  forall i, (i <= 8)%nat -> lasts p lifeExpectancy (hi0 * 2 ^ i) = true.
Proof.
  destruct bracket_spec as (k & Hk & Hb & Hall & Hstop). rewrite Hb. split.
  - intros Hmax i Hi. apply Hall.
    destruct (Nat.eq_dec k 9) as [->|Hne]; [lia|].
    pose proof (hi0_doubled_below k ltac:(lia)). lra.
  - intros H. destruct (Nat.eq_dec k 9) as [->|Hne].
    + rewrite hi0_doubled_9. unfold max. lra.
    + rewrite H in Hstop by lia. specialize (Hstop ltac:(lia)). discriminate.
Qed.

Lemma bracket_ceiling_value :
  max <= bracket p lifeExpectancy 9 hi0 ->
  bracket p lifeExpectancy 9 hi0 = 51200000.
Proof.
  destruct bracket_spec as (k & Hk & Hb & _ & _). rewrite Hb. intros Hmax.
  destruct (Nat.eq_dec k 9) as [->|Hne]; [apply hi0_doubled_9|].
  pose proof (hi0_doubled_below k ltac:(lia)). lra.
Qed.

Lemma bracket_below :
  bracket p lifeExpectancy 9 hi0 < max ->
  hi0 <= bracket p lifeExpectancy 9 hi0 <= 25600000 /\
  lasts p lifeExpectancy (bracket p lifeExpectancy 9 hi0) = false.
Proof.
  destruct bracket_spec as (k & Hk & Hb & _ & Hstop). rewrite Hb. intros Hlt.
  assert (Hk8 : (k <= 8)%nat).
  { destruct (Nat.eq_dec k 9) as [->|Hne]; [|lia].
    rewrite hi0_doubled_9 in Hlt. unfold max in Hlt. lra. }
  split; [|apply Hstop; lia].
  assert (1 <= 2 ^ k) by (apply pow_R1_Rle; lra).
  assert (2 ^ k <= 2 ^ 8) by (apply Rle_pow; [lra | assumption]).
  assert (2 ^ 8 = 256) by (simpl; lra).
  unfold hi0. lra.
Qed.

End BracketFacts.

(** ** The bisection loop *)

Section BisectFacts.

Variable p : Params.
Variable lifeExpectancy : R.

Lemma bisect_order (n : nat) (lo hi : R) :
  lo <= hi ->
  lo <= fst (bisect p lifeExpectancy n lo hi) /\
  fst (bisect p lifeExpectancy n lo hi)
    <= snd (bisect p lifeExpectancy n lo hi) /\
  snd (bisect p lifeExpectancy n lo hi) <= hi.
Proof.
  revert lo hi. induction n as [|n IH]; intros lo hi H.
  - cbn. lra.
  - cbn [bisect]. destruct (lasts p lifeExpectancy ((lo + hi) / 2)).
    + specialize (IH ((lo + hi) / 2) hi ltac:(lra)). lra.
    + specialize (IH lo ((lo + hi) / 2) ltac:(lra)). lra.
Qed.

(** Each iteration halves the interval. *)
Lemma bisect_width (n : nat) (lo hi : R) :
  snd (bisect p lifeExpectancy n lo hi) - fst (bisect p lifeExpectancy n lo hi)
  = (hi - lo) / 2 ^ n.
Proof.
  revert lo hi. induction n as [|n IH]; intros lo hi.
  - cbn. lra.
  - cbn [bisect pow].
    assert (2 ^ n <> 0) by (apply pow_nonzero; lra).
    destruct (lasts p lifeExpectancy ((lo + hi) / 2)); rewrite IH; field;
      assumption.
Qed.

(** The lower bound only moves to points where [lasts] holds, the upper
    bound only to points where it fails. *)
Lemma bisect_lo (n : nat) (lo hi : R) :
  fst (bisect p lifeExpectancy n lo hi) = lo \/
  lasts p lifeExpectancy (fst (bisect p lifeExpectancy n lo hi)) = true.
Proof.
  revert lo hi. induction n as [|n IH]; intros lo hi.
  - left. reflexivity.
  - cbn [bisect]. destruct (lasts p lifeExpectancy ((lo + hi) / 2)) eqn:E.
    + destruct (IH ((lo + hi) / 2) hi) as [-> | H]; right; assumption.
    + apply IH.
Qed.

Lemma bisect_hi (n : nat) (lo hi : R) :
  snd (bisect p lifeExpectancy n lo hi) = hi \/
  lasts p lifeExpectancy (snd (bisect p lifeExpectancy n lo hi)) = false.
Proof.
  revert lo hi. induction n as [|n IH]; intros lo hi.
  - left. reflexivity.
  - cbn [bisect]. destruct (lasts p lifeExpectancy ((lo + hi) / 2)) eqn:E.
    + apply IH.
    + destruct (IH lo ((lo + hi) / 2)) as [-> | H]; right; assumption.
Qed.

(** When [lasts] is a threshold test below [t], bisection keeps the
    threshold between the bounds. *)
Lemma bisect_threshold (t : R) (n : nat) (lo hi : R) :
  (forall s, 0 <= s -> lasts p lifeExpectancy s = true <-> s < t) ->
  0 <= lo -> lo < t <= hi ->
  fst (bisect p lifeExpectancy n lo hi) < t
    <= snd (bisect p lifeExpectancy n lo hi).
Proof.
  intros Ht. revert lo hi. induction n as [|n IH]; intros lo hi H0 H.
  - cbn. lra.
  - cbn [bisect]. destruct (lasts p lifeExpectancy ((lo + hi) / 2)) eqn:E.
    + apply Ht in E; [|lra]. apply IH; lra.
    + assert (~ (lo + hi) / 2 < t).
      { intros Hlt. apply Ht in Hlt; [congruence | lra]. }
      apply IH; lra.
Qed.

End BisectFacts.

(** ** Plain parameter sets *)

Section PlainFacts.

Variables cur ret hor start save s : R.

Lemma plain_mPre : mPre (plain cur ret hor start save s) = 0.
Proof. apply mPre_zero. simpl. lra. Qed.

Lemma plain_mPost : mPost (plain cur ret hor start save s) = 0.
Proof. apply mPost_zero; reflexivity. Qed.

Lemma plain_mInfl : mInfl (plain cur ret hor start save s) = 0.
Proof. apply mInfl_zero. reflexivity. Qed.

Lemma plain_mFix : mFix (plain cur ret hor start save s) = 0.
Proof. apply mFix_zero. simpl. lra. Qed.

Lemma plain_dly : dly (plain cur ret hor start save s) = 0%Z.
Proof. apply dly_zero. reflexivity. Qed.

Lemma plain_nmonths (n : Z) :
  (1 <= n)%Z -> IZR n - 1 / 2 <= hor * 12 < IZR n + 1 / 2 ->
  nmonths (plain cur ret hor start save s) = Z.to_nat n.
Proof.
  intros Hn H. unfold nmonths, months. cbn [plain horizonYears].
  rewrite (Math_round_eq n) by assumption. f_equal. lia.
Qed.

Lemma plain_toRet (n : Z) :
  (0 <= n)%Z -> IZR n - 1 / 2 <= (ret - cur) * 12 < IZR n + 1 / 2 ->
  toRet (plain cur ret hor start save s) = n.
Proof.
  intros Hn H. unfold toRet. cbn [plain retirementAge currentAge].
  rewrite (Math_round_eq n) by assumption. lia.
Qed.

Lemma plain_withSpend (s' : R) :
  withSpend (plain cur ret hor start save s) s' =
  plain cur ret hor start save s'.
Proof. reflexivity. Qed.

End PlainFacts.

Lemma depletedAge_exact (p : Params) :
  depletedAge (simulate p) =
  if truthyR (depletedAgeExact (simulate p))
  then option_map Math_floor (depletedAgeExact (simulate p))
  else None.
Proof. reflexivity. Qed.

Lemma zeroDepleted_never (p : Params) (lifeExpectancy : R) :
  depletedAgeExact (simulate (withSpend p 0)) = None ->
  zeroDepleted p lifeExpectancy = false.
Proof.
  intros H. unfold zeroDepleted, sim. rewrite depletedAge_exact, H.
  reflexivity.
Qed.

Lemma lasts_true_iff (p : Params) (lifeExpectancy s : R) :
  lasts p lifeExpectancy s = true <->
  match depletedAgeExact (simulate (withSpend p s)) with
  | None => True
  | Some d => lifeExpectancy - tol <= d
  end.
Proof.
  unfold lasts, sim.
  destruct (depletedAgeExact (simulate (withSpend p s))) as [d|].
  - apply Rleb_true.
  - tauto.
Qed.


(** For a plain parameter set [lasts] is a test on the linear balance of
    the last month [M] that is more than [tol] before the life
    expectancy. *)
Lemma plain_lasts (cur ret hor start save s0 lifeExpectancy s : R)
    (N T M : nat) :
  0 <= cur -> 0 < start -> 0 <= save -> 0 <= s ->
  nmonths (plain cur ret hor start save s) = N ->
  toRet (plain cur ret hor start save s) = Z.of_nat T ->
  (1 <= M <= N)%nat -> (T <= M)%nat ->
  cur + INR M / 12 < lifeExpectancy - tol <= cur + INR (S M) / 12 ->
  lasts (plain cur ret hor start save s0) lifeExpectancy s = true <->
  0 < start + INR T * save - INR (M - T) * (s / 12).
Proof.
  intros Hcur Hstart Hsave Hs HN HT HM HTM Hage.
  set (q := plain cur ret hor start save s) in *.
  assert (HL : linear q M = start + INR T * save - INR (M - T) * (s / 12)).
  { unfold linear. rewrite HT, Nat2Z.id.
    replace (Nat.min M T) with T by lia.
    cbn [q plain startAssets monthlySave annualSpendToday].
    rewrite Rmax_right by lra. reflexivity. }
  assert (HaM : ageAt q (Z.of_nat M) = cur + INR M / 12).
  { unfold ageAt. rewrite <- INR_IZR_INZ. reflexivity. }
  assert (HaS : ageAt q (Z.of_nat (S M)) = cur + INR (S M) / 12).
  { unfold ageAt. rewrite <- INR_IZR_INZ. reflexivity. }
  rewrite <- HL. split.
  - intros Hl. destruct (Rlt_le_dec 0 (linear q M)) as [|Hle]; [assumption|].
    exfalso.
    destruct (linear_depleted q (plain_mPre _ _ _ _ _ _) (plain_mPost _ _ _ _ _ _)
                (plain_mInfl _ _ _ _ _ _) (plain_mFix _ _ _ _ _ _)
                (plain_dly _ _ _ _ _ _) Hcur M (lifeExpectancy - tol))
      as (d & Hd & Hlt).
    + rewrite HN. exact HM.
    + exact Hle.
    + rewrite HaM. lra.
    + apply lasts_true_iff in Hl. rewrite plain_withSpend in Hl.
      fold q in Hl. rewrite Hd in Hl. lra.
  - intros Hpos. apply lasts_true_iff. rewrite plain_withSpend. fold q.
    apply (linear_lasts q (plain_mPre _ _ _ _ _ _) (plain_mPost _ _ _ _ _ _)
             (plain_mInfl _ _ _ _ _ _) (plain_mFix _ _ _ _ _ _)
             (plain_dly _ _ _ _ _ _) Hcur M).
    + apply linear_pos_upto; try assumption.
    + rewrite HaS. lra.
Qed.

(** With a zero spend a plain parameter set with a positive start never
    depletes. *)
Lemma plain_zero_never (cur ret hor start save s0 : R) :
  0 <= cur -> 0 < start -> 0 <= save ->
  depletedAgeExact (simulate (withSpend (plain cur ret hor start save s0) 0))
  = None.
Proof.
  intros Hcur Hstart Hsave. rewrite plain_withSpend.
  apply linear_never;
    auto using plain_mPre, plain_mPost, plain_mInfl, plain_mFix, plain_dly.
  intros k Hk. unfold linear.
  cbn [plain startAssets monthlySave annualSpendToday].
  rewrite Rmax_right by lra.
  pose proof (pos_INR (Nat.min k (Z.to_nat (toRet (plain cur ret hor start save 0))))).
  nra.
Qed.

(** ** The short drawdown *)

Lemma solverParams_shortDrawdown (a : R) :
  0 <= a -> solverParams (shortDrawdown a) = plain 40 41 2 a 0 0.
Proof.
  intros Ha. unfold solverParams, plain, shortDrawdown, ui_horizonYears.
  cbn. f_equal; solve_Rmax.
Qed.

Lemma shortDrawdown_lasts (a s : R) :
  0 < a -> 0 <= s ->
  lasts (plain 40 41 2 a 0 0) 42 s = true <-> s < 1.2 * a.
Proof.
  intros Ha Hs.
  rewrite (plain_lasts 40 41 2 a 0 0 42 s 24 12 22); try lra; try lia.
  - simpl. lra.
  - apply (plain_nmonths _ _ _ _ _ _ 24); [lia | simpl; lra].
  - apply (plain_toRet _ _ _ _ _ _ 12); [lia | simpl; lra].
  - unfold tol. simpl. lra.
Qed.

(** The search on the short drawdown: the zero-spend check passes, the
    first candidate already fails, and the bisection closes in on the
    threshold [1.2 * a] from below. *)
Lemma shortDrawdown_search (a : R) :
  0 < a -> 1.2 * a <= hi0 ->
  let P := plain 40 41 2 a 0 0 in
  let lo := fst (bisect P 42 34 0 (bracket P 42 9 hi0)) in
  zeroDepleted P 42 = false /\
  bracket P 42 9 hi0 = hi0 /\
  findSustainableSpend P 42 = IZR (Math_round lo) /\
  1.2 * a - 1 / 100000 < lo < 1.2 * a.
Proof.
  intros Ha Hhi P lo.
  assert (Hz : zeroDepleted P 42 = false).
  { apply zeroDepleted_never, plain_zero_never; lra. }
  assert (Hl0 : lasts P 42 hi0 = false).
  { apply not_true_is_false. intros H.
    apply shortDrawdown_lasts in H; unfold hi0 in *; lra. }
  assert (Hb : bracket P 42 9 hi0 = hi0).
  { cbn [bracket]. rewrite Hl0. reflexivity. }
  assert (Hf : findSustainableSpend P 42 = IZR (Math_round lo)).
  { unfold findSustainableSpend. rewrite Hz. cbn zeta. fold lo.
    rewrite Hb.
    replace (Rleb max hi0) with false
      by (symmetry; apply Rleb_false; unfold max, hi0; lra).
    subst lo. rewrite Hb. reflexivity. }
  split; [exact Hz|]. split; [exact Hb|]. split; [exact Hf|].
  subst lo. rewrite Hb.
  pose proof (bisect_threshold P 42 (1.2 * a) 34 0 hi0
                (fun s Hs => shortDrawdown_lasts a s Ha Hs)
                ltac:(lra) ltac:(lra)) as Ht.
  pose proof (bisect_width P 42 34 0 hi0) as Hw.
  assert (H34 : (hi0 - 0) / 2 ^ 34 < 1 / 100000).
  { unfold hi0. replace (2 ^ 34) with 17179869184 by (simpl; lra). lra. }
  lra.
Qed.

(** ** The long saver *)

Lemma solverParams_longSaver :
  solverParams longSaver = plain 0 100 101 5000000 25000 0.
Proof.
  unfold solverParams, plain, longSaver, ui_horizonYears.
  cbn. f_equal; solve_Rmax.
Qed.

Lemma INR_lit (n : nat) (z : Z) : Z.of_nat n = z -> INR n = IZR z.
Proof. intros <-. apply INR_IZR_INZ. Qed.

Lemma longSaver_lasts (s : R) :
  0 <= s ->
  lasts (plain 0 100 101 5000000 25000 0) 101 s = true <-> s < 42000000.
Proof.
  intros Hs.
  rewrite (plain_lasts 0 100 101 5000000 25000 0 101 s 1212 1200 1210);
    try lra; try lia.
  - change (1210 - 1200)%nat with 10%nat.
    rewrite (INR_lit 1200 1200 eq_refl), (INR_lit 10 10 eq_refl). lra.
  - apply (plain_nmonths _ _ _ _ _ _ 1212); [lia | lra].
  - apply (plain_toRet _ _ _ _ _ _ 1200); [lia | lra].
  - rewrite (INR_lit 1210 1210 eq_refl), (INR_lit 1211 1211 eq_refl).
    unfold tol. lra.
Qed.

Lemma longSaver_search :
  let P := plain 0 100 101 5000000 25000 0 in
  zeroDepleted P 101 = false /\
  findSustainableSpend P 101 = 51200000 /\
  lasts P 101 51200000 = false.
Proof.
  intros P.
  assert (Hz : zeroDepleted P 101 = false).
  { apply zeroDepleted_never, plain_zero_never; lra. }
  assert (Hc : max <= bracket P 101 9 hi0).
  { apply bracket_ceiling. intros i Hi. apply longSaver_lasts.
    - assert (0 < 2 ^ i) by (apply pow_lt; lra). unfold hi0. nra.
    - pose proof (hi0_doubled_below i Hi) as H.
      assert (2 ^ i <= 2 ^ 8) by (apply Rle_pow; [lra | assumption]).
      assert (2 ^ 8 = 256) by (simpl; lra). unfold hi0. lra. }
  split; [exact Hz|]. split.
  - unfold findSustainableSpend. rewrite Hz. cbn zeta.
    replace (Rleb max (bracket P 101 9 hi0)) with true
      by (symmetry; apply Rleb_true; exact Hc).
    now apply bracket_ceiling_value.
  - apply not_true_is_false. intros H. apply longSaver_lasts in H; lra.
Qed.

(** ** Depletion in the first month *)


(** The zero-spend check is passed only by a scenario that lasts at zero
    spend, when the current age is at least one. *)
Lemma zero_check_lasts (p : Params) (lifeExpectancy : R) :
  1 <= currentAge p ->
  zeroDepleted p lifeExpectancy = false ->
  lasts p lifeExpectancy 0 = true.
Proof.
  intros Hage Hz. apply lasts_true_iff.
  unfold zeroDepleted, sim in Hz. rewrite depletedAge_exact in Hz.
  set (q := withSpend p 0) in *.
  assert (Hq : 0 <= currentAge q) by (cbn; lra).
  rewrite simulate_state in *. cbn [depletedAgeExact] in *.
  destruct (dep_cases q Hq (nmonths q))
    as [[Hd _] | (m & Hm & Hd & _ & _)]; rewrite Hd in *; [exact I|].
  rewrite (truthyR_ageAt q Hq m) in Hz by lia. cbn [option_map] in Hz.
  set (a := ageAt q (Z.of_nat m)) in *.
  assert (Ha : 1 <= a).
  { subst a. unfold ageAt. change (currentAge q) with (currentAge p).
    assert (1 <= IZR (Z.of_nat m)) by (apply IZR_le; lia). lra. }
  assert (Hfl : (1 <= Math_floor a)%Z) by (apply Zfloor_lub; simpl; lra).
  unfold truthyZ, truthy in Hz.
  replace (Math_floor a =? 0)%Z with false in Hz
    by (symmetry; apply Z.eqb_neq; lia).
  cbn [negb andb] in Hz. apply Rleb_false in Hz.
  pose proof (Zfloor_bound a) as Hb. unfold Math_floor in Hz. unfold tol. lra.
Qed.

(** ** The solver's three exits *)

Section SolverExits.

Variable p : Params.
Variable lifeExpectancy : R.

Lemma find_zero :
  zeroDepleted p lifeExpectancy = true ->
  findSustainableSpend p lifeExpectancy = 0.
Proof. intros H. unfold findSustainableSpend. now rewrite H. Qed.

Lemma find_ceiling :
  zeroDepleted p lifeExpectancy = false ->
  max <= bracket p lifeExpectancy 9 hi0 ->
  findSustainableSpend p lifeExpectancy = 51200000.
Proof.
  intros Hz Hc. unfold findSustainableSpend. rewrite Hz. cbn zeta.
  replace (Rleb max (bracket p lifeExpectancy 9 hi0)) with true
    by (symmetry; apply Rleb_true; exact Hc).
  now apply bracket_ceiling_value.
Qed.

Lemma find_bisect :
  zeroDepleted p lifeExpectancy = false ->
  bracket p lifeExpectancy 9 hi0 < max ->
  findSustainableSpend p lifeExpectancy =
  IZR (Math_round
         (fst (bisect p lifeExpectancy 34 0 (bracket p lifeExpectancy 9 hi0)))).
Proof.
  intros Hz Hc. unfold findSustainableSpend. rewrite Hz. cbn zeta.
  replace (Rleb max (bracket p lifeExpectancy 9 hi0)) with false
    by (symmetry; apply Rleb_false; exact Hc).
  reflexivity.
Qed.

(** The lower bound of the bisection, when it is reached. *)
Lemma find_bisect_lo :
  zeroDepleted p lifeExpectancy = false ->
  bracket p lifeExpectancy 9 hi0 < max ->
  let lo :=
    fst (bisect p lifeExpectancy 34 0 (bracket p lifeExpectancy 9 hi0)) in
  0 <= lo <= 25600000 /\
  (lo = 0 \/ lasts p lifeExpectancy lo = true) /\
  (1 <= currentAge p -> lasts p lifeExpectancy lo = true).
Proof.
  intros Hz Hc lo.
  destruct (bracket_below p lifeExpectancy Hc) as [Hr _].
  pose proof (bisect_order p lifeExpectancy 34 0
                (bracket p lifeExpectancy 9 hi0)) as Ho.
  unfold hi0 in Hr at 1. specialize (Ho ltac:(lra)). fold lo in Ho.
  pose proof (bisect_lo p lifeExpectancy 34 0
                (bracket p lifeExpectancy 9 hi0)) as Hl. fold lo in Hl.
  split; [lra|]. split; [exact Hl|].
  intros Hage. destruct Hl as [-> | Hl]; [|exact Hl].
  now apply zero_check_lasts.
Qed.


End SolverExits.

(** ** The ceiling of the search *)

(** C1 (counterexample).  For the long saver [lasts] holds at the nine
    candidates below the ceiling; the solver returns 51 200 000, which is
    above 5e7, and [lasts] fails at the value returned. *)
Lemma C1_counterexample_long_saver :
  sustainableSpendToday longSaver = 51200000 /\
  max < sustainableSpendToday longSaver /\
  lasts (solverParams longSaver) (ui_lifeExpectancy longSaver)
    (sustainableSpendToday longSaver) = false.
Proof.
  unfold sustainableSpendToday. rewrite solverParams_longSaver.
  cbn [longSaver ui_lifeExpectancy].
  destruct longSaver_search as (_ & Hf & Hl). cbn zeta in Hf, Hl.
  rewrite Hf. split; [reflexivity|]. split; [unfold max; lra | exact Hl].
Qed.

(** C1 (amended).  The value returned never exceeds 51 200 000, which is
    [hi0 * 2 ^ 9], the first doubled candidate at or above the ceiling
    5e7.  When the zero-spend check passes and [lasts] holds at the nine
    candidates [hi0 * 2 ^ i], [i <= 8], below the ceiling, that value is
    returned, whether [lasts] holds at it or not; and a value at or above
    the ceiling is returned in that case only. *)
Theorem C1_ceiling (p : Params) (lifeExpectancy : R) :
  findSustainableSpend p lifeExpectancy <= 51200000 /\
  (zeroDepleted p lifeExpectancy = false ->
   (forall i, (i <= 8)%nat -> lasts p lifeExpectancy (hi0 * 2 ^ i) = true) ->
   findSustainableSpend p lifeExpectancy = 51200000) /\
  (max <= findSustainableSpend p lifeExpectancy ->
   findSustainableSpend p lifeExpectancy = 51200000 /\
   zeroDepleted p lifeExpectancy = false /\
   forall i, (i <= 8)%nat -> lasts p lifeExpectancy (hi0 * 2 ^ i) = true).
Proof.
  assert (Hcases :
    (zeroDepleted p lifeExpectancy = true /\
     findSustainableSpend p lifeExpectancy = 0) \/
    (zeroDepleted p lifeExpectancy = false /\
     max <= bracket p lifeExpectancy 9 hi0 /\
     findSustainableSpend p lifeExpectancy = 51200000) \/
    (zeroDepleted p lifeExpectancy = false /\
     bracket p lifeExpectancy 9 hi0 < max /\
     findSustainableSpend p lifeExpectancy <= 25600000 + 1 / 2)).
  { destruct (zeroDepleted p lifeExpectancy) eqn:Hz.
    - left. split; [reflexivity | now apply find_zero].
    - right. destruct (Rle_lt_dec max (bracket p lifeExpectancy 9 hi0))
        as [Hc|Hc].
      + left. repeat split; [exact Hc | now apply find_ceiling].
      + right. repeat split; [exact Hc|].
        rewrite find_bisect by assumption.
        destruct (find_bisect_lo p lifeExpectancy Hz Hc) as [Hr _].
        cbn zeta in Hr.
        pose proof (Math_round_bound
          (fst (bisect p lifeExpectancy 34 0 (bracket p lifeExpectancy 9 hi0)))).
        lra. }
  split; [|split].
  - destruct Hcases as [[_ ->] | [(_ & _ & ->) | (_ & _ & H)]]; lra.
  - intros Hz Hall. apply find_ceiling; [exact Hz|].
    now apply bracket_ceiling.
  - intros Hmax. unfold max in Hmax.
    destruct Hcases as [[_ H] | [(Hz & Hc & H) | (_ & _ & H)]];
      try (exfalso; lra).
    split; [exact H|]. split; [exact Hz|]. now apply bracket_ceiling.
Qed.

(** ** What the solver returns *)



(** ** The bisection *)

(** C3 (counterexample).  On the short drawdown that starts from 3 the
    solver returns 4 while the floor of the final lower bound is 3. *)
Lemma C3_counterexample_round_not_floor :
  sustainableSpendToday (shortDrawdown 3) = 4 /\
  Math_floor
    (fst (bisect (solverParams (shortDrawdown 3)) 42 34 0
            (bracket (solverParams (shortDrawdown 3)) 42 9 hi0))) = 3%Z.
Proof.
  unfold sustainableSpendToday. cbn [shortDrawdown ui_lifeExpectancy].
  change (mkAppState 40 41 42 3 0 0 0 0 0 0) with (shortDrawdown 3).
  rewrite solverParams_shortDrawdown by lra.
  destruct (shortDrawdown_search 3 ltac:(lra) ltac:(unfold hi0; lra))
    as (_ & _ & Hf & Hlo).
  cbn zeta in Hf, Hlo. split.
  - rewrite Hf. f_equal. apply Math_round_eq. lra.
  - apply Zfloor_eq. lra.
Qed.

(** C3 (amended).  When the zero-spend check passes and the bracket [hi]
    is below the ceiling, [lasts] fails at [hi]; the solver runs 34
    bisection steps from [lo = 0] and [hi], each halving the interval,
    moving [lo] only to points where [lasts] holds and [hi] only to points
    where it fails; and it returns [Math.round] of the final lower bound,
    the nearest integer and not the floor. *)
Theorem C3_bisection (p : Params) (lifeExpectancy : R)
    (Hz : zeroDepleted p lifeExpectancy = false)
    (Hc : bracket p lifeExpectancy 9 hi0 < max) :
  let hi := bracket p lifeExpectancy 9 hi0 in
  let lo' := fst (bisect p lifeExpectancy 34 0 hi) in
  let hi' := snd (bisect p lifeExpectancy 34 0 hi) in
  findSustainableSpend p lifeExpectancy = IZR (Math_round lo') /\
  lasts p lifeExpectancy hi = false /\
  (0 <= lo' /\ lo' <= hi' /\ hi' <= hi) /\
  hi' - lo' = hi / 2 ^ 34 /\
  (lo' = 0 \/ lasts p lifeExpectancy lo' = true) /\
  lasts p lifeExpectancy hi' = false /\
  (1 <= currentAge p -> lasts p lifeExpectancy lo' = true).
Proof.
  intros hi lo' hi'.
  destruct (bracket_below p lifeExpectancy Hc) as [Hr Hlh]. fold hi in Hr, Hlh.
  destruct (find_bisect_lo p lifeExpectancy Hz Hc) as (Hlo & Hl & Hl1).
  cbn zeta in Hlo, Hl, Hl1. fold hi in Hlo, Hl, Hl1. fold lo' in Hlo, Hl, Hl1.
  assert (H0 : 0 <= hi) by (unfold hi0 in Hr; lra).
  pose proof (bisect_order p lifeExpectancy 34 0 hi H0) as Ho.
  fold lo' hi' in Ho.
  pose proof (bisect_width p lifeExpectancy 34 0 hi) as Hw. fold lo' hi' in Hw.
  split; [now apply find_bisect|]. split; [exact Hlh|].
  split; [lra|]. split; [rewrite Hw; f_equal; lra|].
  split; [exact Hl|]. split; [|exact Hl1].
  destruct (bisect_hi p lifeExpectancy 34 0 hi) as [He | He];
    fold hi' in He; [rewrite He|]; assumption.
Qed.

Lemma C3_bisection_witness :
  zeroDepleted (plain 40 41 2 1.5 0 0) 42 = false /\
  bracket (plain 40 41 2 1.5 0 0) 42 9 hi0 < max /\
  findSustainableSpend (plain 40 41 2 1.5 0 0) 42 =
  IZR (Math_round
         (fst (bisect (plain 40 41 2 1.5 0 0) 42 34 0
                 (bracket (plain 40 41 2 1.5 0 0) 42 9 hi0)))).
Proof.
  destruct (shortDrawdown_search 1.5 ltac:(lra) ltac:(unfold hi0; lra))
    as (Hz & Hb & _ & _).
  cbn zeta in Hz, Hb.
  assert (Hc : bracket (plain 40 41 2 1.5 0 0) 42 9 hi0 < max)
    by (rewrite Hb; unfold hi0, max; lra).
  split; [exact Hz|]. split; [exact Hc|].
  exact (proj1 (C3_bisection (plain 40 41 2 1.5 0 0) 42 Hz Hc)).
Defined.

(** ** An empty account *)






(** * Further properties of the engine and the solver *)

(** ** One scenario at or below another *)

Lemma rate_above_minus_1 (p : Params) (m : Z) : -1 < rate p m.
Proof.
  unfold rate, mPre, mPost, Math_pow, Rpower.
  destruct (pre p m);
    match goal with |- context [exp ?x] => pose proof (exp_pos x) end; lra.
Qed.

Lemma rawBalance_le (p q : Params) (m : Z) (b b' : R) :
  0 <= b -> b <= b' ->
  rate p m <= rate q m ->
  contribution p m <= contribution q m ->
  spend q m <= spend p m ->
  mFix q <= mFix p ->
  rawBalance p m b <= rawBalance q m b'.
Proof.
  intros Hb Hbb Hr Hc Hs Hf. unfold rawBalance.
  pose proof (rate_above_minus_1 p m) as Hp.
  assert (b * (1 + rate p m) <= b' * (1 + rate q m)) by nra.
  lra.
Qed.

Section Dominance.

Variables p q : Params.
Hypothesis Hstart : Rmax 0 (startAssets p) <= Rmax 0 (startAssets q).
Hypothesis Hraw :
  forall (m : Z) (b b' : R),
    (1 <= m)%Z -> 0 <= b -> b <= b' ->
    rawBalance p m b <= rawBalance q m b'.

Lemma dominated_balAt (n : nat) : balAt p n <= balAt q n.
Proof.
  induction n as [|n IH].
  - rewrite !balAt_0. exact Hstart.
  - rewrite !balAt_S. unfold rawAt. cbn [pred].
    apply Rle_max_compat_l, Hraw; [lia | apply balAt_nonneg | exact IH].
Qed.

Lemma dominated_rawAt (n : nat) : (1 <= n)%nat -> rawAt p n <= rawAt q n.
Proof.
  intros Hn. unfold rawAt.
  apply Hraw; [lia | apply balAt_nonneg | apply dominated_balAt].
Qed.

Hypothesis Hcur : currentAge p = currentAge q.
Hypothesis Hage : 0 <= currentAge p.
Hypothesis Hmonths : nmonths p = nmonths q.

(** The scenario below depletes no later than the one above. *)
Lemma dominated_depletion :
  match depletedAgeExact (simulate q) with
  | None => True
  | Some dq =>
      exists dp, depletedAgeExact (simulate p) = Some dp /\ dp <= dq
  end.
Proof.
  assert (Hageq : 0 <= currentAge q) by (rewrite <- Hcur; exact Hage).
  rewrite !simulate_state. cbn [depletedAgeExact].
  destruct (dep_cases q Hageq (nmonths q))
    as [[Hd _] | (m & Hm & Hd & Hneg & _)]; rewrite Hd; [exact I|].
  pose proof (dominated_rawAt m ltac:(lia)) as Hle.
  destruct (dep_cases p Hage (nmonths p))
    as [[_ Hall] | (m' & Hm' & Hd' & _ & Hfirst)].
  - specialize (Hall m ltac:(lia)). lra.
  - exists (ageAt p (Z.of_nat m')). split; [exact Hd'|].
    assert (Hmm : (m' <= m)%nat).
    { destruct (Nat.le_gt_cases m' m) as [|Hgt]; [assumption|].
      specialize (Hfirst m ltac:(lia)). lra. }
    unfold ageAt. rewrite Hcur.
    assert (IZR (Z.of_nat m') <= IZR (Z.of_nat m)) by (apply IZR_le; lia).
    lra.
Qed.

End Dominance.

(** ** More spend *)

Lemma spend_monotone (p : Params) (s s' : R) (m : Z) :
  s <= s' -> spend (withSpend p s) m <= spend (withSpend p s') m.
Proof.
  intros Hs. rewrite !spend_cases.
  change (toRet (withSpend p s')) with (toRet (withSpend p s)).
  destruct (m <=? toRet (withSpend p s))%Z; [lra|].
  cbn [withSpend annualSpendToday].
  change (mInfl (withSpend p s')) with (mInfl (withSpend p s)).
  change (toRet (withSpend p s')) with (toRet (withSpend p s)).
  match goal with |- context [Rpower ?x ?y] =>
    assert (0 < Rpower x y) by (unfold Rpower; apply exp_pos) end.
  nra.
Qed.

Lemma spend_dominated (p : Params) (s s' : R) (m : Z) (b b' : R) :
  s <= s' -> (1 <= m)%Z -> 0 <= b -> b <= b' ->
  rawBalance (withSpend p s') m b <= rawBalance (withSpend p s) m b'.
Proof.
  intros Hs Hm Hb Hbb. apply rawBalance_le; try assumption.
  - apply Req_le. reflexivity.
  - apply Req_le. reflexivity.
  - now apply spend_monotone.
  - apply Req_le. reflexivity.
Qed.

(** X1.  For an inflation rate above -1, a higher annual spend never
    raises the balance: after every month, and so at the end, the balance
    under the higher spend is at most the balance under the lower one. *)
Theorem X1_more_spend_lower_balance (p : Params) (s s' : R)
    (Hinfl : -1 < inflationAnnual p) (Hs : s <= s') :
  (forall n, balAt (withSpend p s') n <= balAt (withSpend p s) n) /\
  endNom (simulate (withSpend p s')) <= endNom (simulate (withSpend p s)).
Proof.
  assert (H : forall n, balAt (withSpend p s') n <= balAt (withSpend p s) n).
  { intros n. apply dominated_balAt.
    - apply Req_le. reflexivity.
    - intros m b b'. now apply spend_dominated. }
  split; [exact H|]. rewrite !endNom_balAt.
  change (nmonths (withSpend p s')) with (nmonths (withSpend p s)). apply H.
Qed.

Lemma X1_more_spend_lower_balance_witness :
  -1 < inflationAnnual testBase /\ 0 <= 60000 /\
  endNom (simulate (withSpend testBase 60000))
    <= endNom (simulate (withSpend testBase 0)).
Proof.
  assert (Hi : -1 < inflationAnnual testBase) by (simpl; lra).
  assert (Hs : 0 <= 60000) by lra.
  split; [exact Hi|]. split; [exact Hs|].
  exact (proj2 (X1_more_spend_lower_balance testBase 0 60000 Hi Hs)).
Defined.

Lemma lasts_antitone (p : Params) (lifeExpectancy s s' : R) :
  0 <= currentAge p -> -1 < inflationAnnual p ->
  s <= s' -> lasts p lifeExpectancy s' = true ->
  lasts p lifeExpectancy s = true.
Proof.
  intros Hage Hinfl Hs Hl. apply lasts_true_iff. apply lasts_true_iff in Hl.
  pose proof (dominated_depletion (withSpend p s') (withSpend p s)
                (Rle_refl _)
                (fun m b b' => spend_dominated p s s' m b b' Hs)
                eq_refl Hage eq_refl) as H.
  destruct (depletedAgeExact (simulate (withSpend p s))) as [d|]; [|exact I].
  destruct H as (d' & Hd' & Hle). rewrite Hd' in Hl. lra.
Qed.

(** X2.  For a current age that is not negative and an inflation rate
    above -1, feasibility is antitone in the spend: a scenario that
    [lasts] at a spend lasts at every lower spend, and one that fails to
    last at a spend fails at every higher spend. *)
Theorem X2_lasts_antitone (p : Params) (lifeExpectancy s s' : R)
    (Hage : 0 <= currentAge p) (Hinfl : -1 < inflationAnnual p)
    (Hs : s <= s') :
  (lasts p lifeExpectancy s' = true -> lasts p lifeExpectancy s = true) /\
  (lasts p lifeExpectancy s = false -> lasts p lifeExpectancy s' = false).
Proof.
  split.
  - now apply lasts_antitone.
  - intros Hf. apply not_true_is_false. intros Ht.
    rewrite (lasts_antitone p lifeExpectancy s s') in Hf by assumption.
    discriminate.
Qed.

Lemma X2_lasts_antitone_witness :
  0 <= currentAge (plain 40 41 2 1.5 0 0) /\
  -1 < inflationAnnual (plain 40 41 2 1.5 0 0) /\
  0 <= 1 /\
  lasts (plain 40 41 2 1.5 0 0) 42 1 = true /\
  lasts (plain 40 41 2 1.5 0 0) 42 0 = true.
Proof.
  assert (Ha : 0 <= currentAge (plain 40 41 2 1.5 0 0)) by (simpl; lra).
  assert (Hi : -1 < inflationAnnual (plain 40 41 2 1.5 0 0)) by (simpl; lra).
  assert (Hs : 0 <= 1) by lra.
  assert (Hl : lasts (plain 40 41 2 1.5 0 0) 42 1 = true)
    by (apply shortDrawdown_lasts; lra).
  split; [exact Ha|]. split; [exact Hi|]. split; [exact Hs|].
  split; [exact Hl|].
  exact (proj1 (X2_lasts_antitone (plain 40 41 2 1.5 0 0) 42 0 1 Ha Hi Hs)
           Hl).
Defined.

(** ** The value returned and the feasibility boundary *)

Lemma find_at_ceiling (p : Params) (lifeExpectancy : R) :
  max <= findSustainableSpend p lifeExpectancy ->
  zeroDepleted p lifeExpectancy = false /\
  max <= bracket p lifeExpectancy 9 hi0.
Proof.
  intros Hmax. unfold max in Hmax.
  destruct (zeroDepleted p lifeExpectancy) eqn:Hz.
  - rewrite find_zero in Hmax by assumption. lra.
  - split; [reflexivity|].
    destruct (Rle_lt_dec max (bracket p lifeExpectancy 9 hi0)) as [Hc|Hc];
      [exact Hc|exfalso].
    rewrite find_bisect in Hmax by assumption.
    destruct (find_bisect_lo p lifeExpectancy Hz Hc) as [Hr _].
    cbn zeta in Hr.
    pose proof (Math_round_bound
      (fst (bisect p lifeExpectancy 34 0 (bracket p lifeExpectancy 9 hi0)))).
    lra.
Qed.

(** X3.  For a current age of at least one and an inflation rate above
    -1, when the zero-spend check passes and the bracket stays below the
    ceiling, the value [v] that the solver returns is within half a unit,
    plus the final width of the bisection, of the feasibility boundary:
    every spend up to [v - 1/2] lasts, and no spend from [v + 1/2 + 1/500]
    on does. *)
Theorem X3_returned_spend_near_boundary (p : Params) (lifeExpectancy : R)
    (Hage : 1 <= currentAge p) (Hinfl : -1 < inflationAnnual p)
    (Hz : zeroDepleted p lifeExpectancy = false)
    (Hc : bracket p lifeExpectancy 9 hi0 < max) :
  let v := findSustainableSpend p lifeExpectancy in
  (forall s, s <= v - 1 / 2 -> lasts p lifeExpectancy s = true) /\
  (forall s, v + 1 / 2 + 1 / 500 <= s -> lasts p lifeExpectancy s = false).
Proof.
  intros v. subst v. rewrite find_bisect by assumption.
  set (hi := bracket p lifeExpectancy 9 hi0) in *.
  set (lo' := fst (bisect p lifeExpectancy 34 0 hi)).
  set (hi' := snd (bisect p lifeExpectancy 34 0 hi)).
  destruct (bracket_below p lifeExpectancy Hc) as [Hr Hlh]. fold hi in Hr, Hlh.
  destruct (find_bisect_lo p lifeExpectancy Hz Hc) as (_ & _ & Hl1).
  cbn zeta in Hl1. fold hi in Hl1. fold lo' in Hl1. specialize (Hl1 Hage).
  pose proof (bisect_width p lifeExpectancy 34 0 hi) as Hw. fold lo' hi' in Hw.
  assert (Hh' : lasts p lifeExpectancy hi' = false).
  { destruct (bisect_hi p lifeExpectancy 34 0 hi) as [He | He];
      fold hi' in He; [rewrite He|]; assumption. }
  pose proof (Math_round_bound lo') as Hrb.
  assert (Ha0 : 0 <= currentAge p) by lra.
  split.
  - intros s Hs.
    apply (lasts_antitone p lifeExpectancy s lo'); try assumption.
    lra.
  - intros s Hs. apply not_true_is_false. intros Hls.
    assert (Hwid : (hi - 0) / 2 ^ 34 < 1 / 500).
    { replace (2 ^ 34) with 17179869184 by (simpl; lra). lra. }
    assert (Hle : hi' <= s) by lra.
    pose proof (lasts_antitone p lifeExpectancy hi' s Ha0 Hinfl Hle Hls).
    congruence.
Qed.

Lemma X3_returned_spend_near_boundary_witness :
  1 <= currentAge (plain 40 41 2 1.5 0 0) /\
  -1 < inflationAnnual (plain 40 41 2 1.5 0 0) /\
  zeroDepleted (plain 40 41 2 1.5 0 0) 42 = false /\
  bracket (plain 40 41 2 1.5 0 0) 42 9 hi0 < max /\
  forall s, findSustainableSpend (plain 40 41 2 1.5 0 0) 42 + 1 / 2 + 1 / 500
            <= s ->
            lasts (plain 40 41 2 1.5 0 0) 42 s = false.
Proof.
  assert (Ha : 1 <= currentAge (plain 40 41 2 1.5 0 0)) by (simpl; lra).
  assert (Hi : -1 < inflationAnnual (plain 40 41 2 1.5 0 0)) by (simpl; lra).
  destruct (shortDrawdown_search 1.5 ltac:(lra) ltac:(unfold hi0; lra))
    as (Hz & Hb & _ & _).
  cbn zeta in Hz, Hb.
  assert (Hc : bracket (plain 40 41 2 1.5 0 0) 42 9 hi0 < max)
    by (rewrite Hb; unfold hi0, max; lra).
  split; [exact Ha|]. split; [exact Hi|]. split; [exact Hz|].
  split; [exact Hc|].
  exact (proj2 (X3_returned_spend_near_boundary
                  (plain 40 41 2 1.5 0 0) 42 Ha Hi Hz Hc)).
Defined.

(** X4.  For a current age that is not negative and an inflation rate
    above -1, a returned value at or above the ceiling means that every
    spend up to 25 600 000, the last candidate tried below the ceiling,
    lasts. *)
Theorem X4_ceiling_means_feasible (p : Params) (lifeExpectancy : R)
    (Hage : 0 <= currentAge p) (Hinfl : -1 < inflationAnnual p)
    (Hmax : max <= findSustainableSpend p lifeExpectancy) :
  forall s, s <= 25600000 -> lasts p lifeExpectancy s = true.
Proof.
  intros s Hs.
  destruct (find_at_ceiling p lifeExpectancy Hmax) as [_ Hc].
  pose proof (proj1 (bracket_ceiling p lifeExpectancy) Hc 8%nat (le_n 8)) as H8.
  apply (lasts_antitone p lifeExpectancy s (hi0 * 2 ^ 8)); try assumption.
  unfold hi0. simpl. lra.
Qed.

Lemma X4_ceiling_means_feasible_witness :
  0 <= currentAge (plain 0 100 101 5000000 25000 0) /\
  -1 < inflationAnnual (plain 0 100 101 5000000 25000 0) /\
  max <= findSustainableSpend (plain 0 100 101 5000000 25000 0) 101 /\
  lasts (plain 0 100 101 5000000 25000 0) 101 25600000 = true.
Proof.
  assert (Ha : 0 <= currentAge (plain 0 100 101 5000000 25000 0))
    by (simpl; lra).
  assert (Hi : -1 < inflationAnnual (plain 0 100 101 5000000 25000 0))
    by (simpl; lra).
  assert (Hm : max <= findSustainableSpend (plain 0 100 101 5000000 25000 0) 101).
  { destruct longSaver_search as (_ & Hf & _). cbn zeta in Hf. rewrite Hf.
    unfold max. lra. }
  split; [exact Ha|]. split; [exact Hi|]. split; [exact Hm|].
  apply (X4_ceiling_means_feasible _ 101 Ha Hi Hm). lra.
Defined.

(** X5.  The doubling loop of the solver stops within nine iterations on
    every scenario: with any larger iteration budget it returns the same
    bracket, and its loop condition is false at that bracket. *)
Theorem X5_bracket_terminates (p : Params) (lifeExpectancy : R) (fuel : nat)
    (Hfuel : (9 <= fuel)%nat) :
  bracket p lifeExpectancy fuel hi0 = bracket p lifeExpectancy 9 hi0 /\
  lasts p lifeExpectancy (bracket p lifeExpectancy fuel hi0)
    && Rltb (bracket p lifeExpectancy fuel hi0) max = false.
Proof.
  rewrite bracket_fuel by assumption. split; [reflexivity|].
  apply bracket_exit.
Qed.

Lemma X5_bracket_terminates_witness :
  (9 <= 20)%nat /\
  bracket testBase 90 20 hi0 = bracket testBase 90 9 hi0.
Proof.
  assert (H : (9 <= 20)%nat) by lia.
  split; [exact H|].
  exact (proj1 (X5_bracket_terminates testBase 90 20 H)).
Defined.

(** ** A longer delay *)

Lemma Math_round_le (x y : R) : x <= y -> (Math_round x <= Math_round y)%Z.
Proof. intros H. unfold Math_round. apply Zfloor_le. lra. Qed.

Lemma contribution_delay (p : Params) (d d' : R) (m : Z) :
  0 <= monthlySave p -> d <= d' ->
  contribution (withDelay p d') m <= contribution (withDelay p d) m.
Proof.
  intros Hsave Hd. unfold contribution.
  change (pre (withDelay p d') m) with (pre (withDelay p d) m).
  cbn [withDelay monthlySave].
  assert (Hdly : (dly (withDelay p d) <= dly (withDelay p d'))%Z).
  { unfold dly. cbn [withDelay delayYears].
    apply Z.max_le_compat_l, Math_round_le. lra. }
  destruct (pre (withDelay p d) m); cbn [andb]; [|lra].
  destruct (dly (withDelay p d') <? m)%Z eqn:E.
  - apply Z.ltb_lt in E.
    replace (dly (withDelay p d) <? m)%Z with true
      by (symmetry; apply Z.ltb_lt; lia).
    lra.
  - destruct (dly (withDelay p d) <? m)%Z; lra.
Qed.

Lemma delay_dominated (p : Params) (d d' : R) (m : Z) (b b' : R) :
  0 <= monthlySave p -> d <= d' -> (1 <= m)%Z -> 0 <= b -> b <= b' ->
  rawBalance (withDelay p d') m b <= rawBalance (withDelay p d) m b'.
Proof.
  intros Hsave Hd Hm Hb Hbb. apply rawBalance_le; try assumption.
  - apply Req_le. reflexivity.
  - now apply contribution_delay.
  - apply Req_le. reflexivity.
  - apply Req_le. reflexivity.
Qed.

(** X6.  For monthly savings that are not negative and an inflation rate
    above -1, a longer delay never raises the balance: after every month,
    and so at the end, the balance under the longer delay is at most the
    balance under the shorter one. *)
Theorem X6_longer_delay_lower_balance (p : Params) (d d' : R)
    (Hsave : 0 <= monthlySave p) (Hinfl : -1 < inflationAnnual p)
    (Hd : d <= d') :
  (forall n, balAt (withDelay p d') n <= balAt (withDelay p d) n) /\
  endNom (simulate (withDelay p d')) <= endNom (simulate (withDelay p d)).
Proof.
  assert (H : forall n, balAt (withDelay p d') n <= balAt (withDelay p d) n).
  { intros n. apply dominated_balAt.
    - apply Req_le. reflexivity.
    - intros m b b'. now apply delay_dominated. }
  split; [exact H|]. rewrite !endNom_balAt.
  change (nmonths (withDelay p d')) with (nmonths (withDelay p d)). apply H.
Qed.

Lemma X6_longer_delay_lower_balance_witness :
  0 <= monthlySave testBase /\ -1 < inflationAnnual testBase /\ 0 <= 3 /\
  endNom (simulate (withDelay testBase 3))
    <= endNom (simulate (withDelay testBase 0)).
Proof.
  assert (Hs : 0 <= monthlySave testBase) by (simpl; lra).
  assert (Hi : -1 < inflationAnnual testBase) by (simpl; lra).
  assert (Hd : 0 <= 3) by lra.
  split; [exact Hs|]. split; [exact Hi|]. split; [exact Hd|].
  exact (proj2 (X6_longer_delay_lower_balance testBase 0 3 Hs Hi Hd)).
Defined.

(** ** Higher fees *)

Lemma rate_fees (p : Params) (f1 f2 f3 : R) (m : Z) :
  feeAnnualPre p <= f1 -> feeAnnualPost p <= f2 ->
  rate (withFees p f1 f2 f3) m <= rate p m.
Proof.
  intros H1 H2. unfold rate.
  change (pre (withFees p f1 f2 f3) m) with (pre p m).
  destruct (pre p m).
  - unfold mPre, Math_pow.
    assert (Hle : preNet (withFees p f1 f2 f3) <= preNet p).
    { unfold preNet. cbn [withFees preAnnualGross feeAnnualPre].
      apply Rle_max_compat_l. lra. }
    pose proof (preNet_floor (withFees p f1 f2 f3)).
    assert (Rpower (1 + preNet (withFees p f1 f2 f3)) (1 / 12)
            <= Rpower (1 + preNet p) (1 / 12))
      by (apply Rle_Rpower_l; lra).
    lra.
  - unfold mPost, Math_pow.
    assert (Hle : postNet (withFees p f1 f2 f3) <= postNet p).
    { unfold postNet.
      change (postNominal (withFees p f1 f2 f3)) with (postNominal p).
      cbn [withFees feeAnnualPost]. apply Rle_max_compat_l. lra. }
    pose proof (postNet_floor (withFees p f1 f2 f3)).
    assert (Rpower (1 + postNet (withFees p f1 f2 f3)) (1 / 12)
            <= Rpower (1 + postNet p) (1 / 12))
      by (apply Rle_Rpower_l; lra).
    lra.
Qed.

Lemma mFix_fees (p : Params) (f1 f2 f3 : R) :
  fixedFeeAnnual p <= f3 -> mFix p <= mFix (withFees p f1 f2 f3).
Proof.
  intros H. unfold mFix. cbn [withFees fixedFeeAnnual].
  assert (Rmax 0 (fixedFeeAnnual p) <= Rmax 0 f3)
    by (apply Rle_max_compat_l; exact H).
  lra.
Qed.

Lemma fees_dominated (p : Params) (f1 f2 f3 : R) (m : Z) (b b' : R) :
  feeAnnualPre p <= f1 -> feeAnnualPost p <= f2 -> fixedFeeAnnual p <= f3 ->
  (1 <= m)%Z -> 0 <= b -> b <= b' ->
  rawBalance (withFees p f1 f2 f3) m b <= rawBalance p m b'.
Proof.
  intros H1 H2 H3 Hm Hb Hbb. apply rawBalance_le; try assumption.
  - now apply rate_fees.
  - apply Req_le. reflexivity.
  - apply Req_le. reflexivity.
  - now apply mFix_fees.
Qed.

Lemma fees_balAt (p : Params) (f1 f2 f3 : R) (n : nat) :
  feeAnnualPre p <= f1 -> feeAnnualPost p <= f2 -> fixedFeeAnnual p <= f3 ->
  balAt (withFees p f1 f2 f3) n <= balAt p n.
Proof.
  intros H1 H2 H3. apply dominated_balAt.
  - apply Req_le. reflexivity.
  - intros m b b'. now apply fees_dominated.
Qed.

(** X7.  For an inflation rate above -1, raising any of the three fees
    (the pre-retirement rate, the post-retirement rate, the fixed annual
    fee) never raises the balance, after any month and at the end. *)
Theorem X7_higher_fees_lower_balance (p : Params) (f1 f2 f3 : R)
    (Hinfl : -1 < inflationAnnual p)
    (H1 : feeAnnualPre p <= f1) (H2 : feeAnnualPost p <= f2)
    (H3 : fixedFeeAnnual p <= f3) :
  (forall n, balAt (withFees p f1 f2 f3) n <= balAt p n) /\
  endNom (simulate (withFees p f1 f2 f3)) <= endNom (simulate p).
Proof.
  split; [intros n; now apply fees_balAt|].
  rewrite !endNom_balAt.
  change (nmonths (withFees p f1 f2 f3)) with (nmonths p).
  now apply fees_balAt.
Qed.

Lemma X7_higher_fees_lower_balance_witness :
  -1 < inflationAnnual testBase /\
  feeAnnualPre testBase <= 0.02 /\ feeAnnualPost testBase <= 0.02 /\
  fixedFeeAnnual testBase <= 0 /\
  endNom (simulate (withFees testBase 0.02 0.02 0))
    <= endNom (simulate testBase).
Proof.
  assert (Hi : -1 < inflationAnnual testBase) by (simpl; lra).
  assert (H1 : feeAnnualPre testBase <= 0.02) by (simpl; lra).
  assert (H2 : feeAnnualPost testBase <= 0.02) by (simpl; lra).
  assert (H3 : fixedFeeAnnual testBase <= 0) by (simpl; lra).
  split; [exact Hi|]. split; [exact H1|]. split; [exact H2|].
  split; [exact H3|].
  exact (proj2 (X7_higher_fees_lower_balance testBase 0.02 0.02 0 Hi H1 H2 H3)).
Defined.

(** ** One row per year of age *)

Lemma deflator_0 (p : Params) : deflator p 0 = 1.
Proof.
  unfold deflator, Math_pow. apply Rpower_O, one_plus_mInfl_pos.
Qed.

Lemma yearRow_age (p : Params) (k : nat) :
  age (yearRow p k) = (Math_floor (currentAge p) + Z.of_nat k)%Z.
Proof.
  unfold yearRow. cbn [age]. unfold ageAt, Math_floor.
  rewrite <- Zfloor_addz. f_equal.
  rewrite Nat2Z.inj_mul, mult_IZR. change (Z.of_nat 12) with 12%Z. lra.
Qed.

Lemma initRow_yearRow (p : Params) : initRow p = yearRow p 0.
Proof.
  unfold initRow, yearRow. cbn zeta. change (12 * 0)%nat with 0%nat.
  rewrite balAt_0. change (Z.of_nat 0) with 0%Z. rewrite deflator_0. f_equal.
  - unfold ageAt. f_equal. lra.
  - lra.
Qed.

Lemma rows_simulate (p : Params) :
  rows (simulate p) = map (yearRow p) (seq 0 (S (nmonths p / 12))).
Proof.
  rewrite simulate_state. cbn [rows]. rewrite acc_stateAt.
  cbn [seq map]. now rewrite initRow_yearRow.
Qed.

(** X8.  The rows of a simulation are one per completed year, the
    starting point included: there are [1 + months div 12] of them, and
    row [k] carries the age [floor currentAge + k], the balance after
    [12 * k] months and that balance deflated by [(1 + mInfl) ^ (12 * k)];
    in particular the ages are consecutive integers. *)
Theorem X8_rows_by_year (p : Params) :
  length (rows (simulate p)) = S (nmonths p / 12) /\
  forall k, (k <= nmonths p / 12)%nat ->
    exists r, nth_error (rows (simulate p)) k = Some r /\
      age r = (Math_floor (currentAge p) + Z.of_nat k)%Z /\
      nominal r = balAt p (12 * k) /\
      real r = balAt p (12 * k) / (1 + mInfl p) ^ (12 * k).
Proof.
  rewrite rows_simulate. split.
  - now rewrite length_map, length_seq.
  - intros k Hk. exists (yearRow p k). split; [|split; [|split]].
    + rewrite nth_error_map, nth_error_seq.
      replace (k <? S (nmonths p / 12))%nat with true
        by (symmetry; apply Nat.ltb_lt; lia).
      reflexivity.
    + apply yearRow_age.
    + reflexivity.
    + unfold yearRow. cbn [real]. unfold deflator, Math_pow.
      rewrite Rpower_Z_pow by (try apply one_plus_mInfl_pos; lia).
      now rewrite Nat2Z.id.
Qed.

(** ** The row at retirement *)

Lemma find_map_seq_first {A : Type} (Q : A -> bool) (g : nat -> A)
    (a n k : nat) :
  (a <= k < a + n)%nat ->
  Q (g k) = true ->
  (forall j, (a <= j < k)%nat -> Q (g j) = false) ->
  find Q (map g (seq a n)) = Some (g k).
Proof.
  revert a. induction n as [|n IH]; intros a Hk Hq Hbefore; [lia|].
  cbn [seq map find]. destruct (Nat.eq_dec a k) as [->|Hne].
  - now rewrite Hq.
  - rewrite Hbefore by lia. apply IH; [lia | assumption |].
    intros j Hj. apply Hbefore. lia.
Qed.

Lemma find_map_seq_none {A : Type} (Q : A -> bool) (g : nat -> A)
    (a n : nat) :
  (forall j, (a <= j < a + n)%nat -> Q (g j) = false) ->
  find Q (map g (seq a n)) = None.
Proof.
  revert a. induction n as [|n IH]; intros a H; [reflexivity|].
  cbn [seq map find]. rewrite H by lia. apply IH.
  intros j Hj. apply H. lia.
Qed.

Lemma lastRow_map_seq (g : nat -> Row) (n : nat) :
  lastRow (map g (seq 0 (S n))) = Some (g n).
Proof.
  unfold lastRow. rewrite seq_S, map_app, rev_app_distr. reflexivity.
Qed.

(** The index of the row that [atRet] picks among the rows of a
    simulation. *)
Lemma atRet_simulate (p : Params) (retAge : R) :
  atRet retAge (rows (simulate p)) =
  Some (yearRow p
          (Z.to_nat (Z.min (Z.of_nat (nmonths p / 12))
                       (Z.max 0 (Math_ceil retAge
                                 - Math_floor (currentAge p)))))).
Proof.
  rewrite rows_simulate. unfold atRet, Math_ceil.
  set (N := (nmonths p / 12)%nat). set (f := Math_floor (currentAge p)).
  set (z := Zceil retAge). pose proof (Zceil_bound retAge) as Hz. fold z in Hz.
  assert (Hage : forall j, IZR (age (yearRow p j)) = IZR f + INR j).
  { intros j. rewrite yearRow_age. fold f.
    now rewrite plus_IZR, <- INR_IZR_INZ. }
  assert (HeqF : forall j, IZR f + INR j <> retAge ->
            Reqb (IZR (age (yearRow p j))) retAge = false).
  { intros j H. apply Reqb_false. now rewrite Hage. }
  assert (HgtF : forall j, IZR f + INR j <= retAge ->
            Rltb retAge (IZR (age (yearRow p j))) = false).
  { intros j H. apply Rltb_false. now rewrite Hage. }
  assert (Hc : forall j : nat, IZR (f + Z.of_nat j) = IZR f + INR j).
  { intros j. now rewrite plus_IZR, <- INR_IZR_INZ. }
  assert (Hint : forall j : nat, (f + Z.of_nat j < z)%Z ->
            IZR f + INR j <= IZR z - 1).
  { intros j Hj. rewrite <- Hc, <- minus_IZR. apply IZR_le. lia. }
  assert (Hint' : forall j : nat, (z <= f + Z.of_nat j)%Z ->
            IZR z <= IZR f + INR j).
  { intros j Hj. rewrite <- Hc. apply IZR_le. exact Hj. }
  destruct (Z_le_gt_dec (z - f) 0) as [Hle0 | Hgt0].
  - (* the retirement age is at or before the first row *)
    replace (Z.to_nat (Z.min (Z.of_nat N) (Z.max 0 (z - f)))) with 0%nat by lia.
    destruct (Req_dec_T (IZR f) retAge) as [Heq | Hne].
    + rewrite (find_map_seq_first _ (yearRow p) 0 (S N) 0); try lia.
      * reflexivity.
      * apply Reqb_true. rewrite Hage. simpl. lra.
    + assert (Hlt : retAge < IZR f).
      { assert (IZR z <= IZR f) by (apply IZR_le; lia). lra. }
      rewrite find_map_seq_none.
      * rewrite (find_map_seq_first _ (yearRow p) 0 (S N) 0); try lia.
        -- reflexivity.
        -- apply Rltb_true. rewrite Hage. simpl. lra.
      * intros j Hj. apply HeqF. pose proof (pos_INR j). lra.
  - destruct (Z_le_gt_dec (z - f) (Z.of_nat N)) as [HleN | HgtN].
    + (* the retirement age falls among the rows *)
      set (k := Z.to_nat (z - f)).
      replace (Z.to_nat (Z.min (Z.of_nat N) (Z.max 0 (z - f)))) with k by lia.
      assert (Hk : IZR f + INR k = IZR z).
      { rewrite <- Hc. f_equal. lia. }
      destruct (Req_dec_T (IZR z) retAge) as [Heq | Hne].
      * rewrite (find_map_seq_first _ (yearRow p) 0 (S N) k); try lia.
        -- reflexivity.
        -- apply Reqb_true. rewrite Hage. lra.
        -- intros j Hj. apply HeqF.
           pose proof (Hint j ltac:(lia)). lra.
      * rewrite find_map_seq_none.
        -- rewrite (find_map_seq_first _ (yearRow p) 0 (S N) k); try lia.
           ++ reflexivity.
           ++ apply Rltb_true. rewrite Hage. lra.
           ++ intros j Hj. apply HgtF.
              pose proof (Hint j ltac:(lia)). lra.
        -- intros j Hj. apply HeqF.
           destruct (Z_lt_le_dec (f + Z.of_nat j) z) as [H1 | H1].
           ++ pose proof (Hint j H1). lra.
           ++ pose proof (Hint' j H1). lra.
    + (* the retirement age is beyond the last row *)
      replace (Z.to_nat (Z.min (Z.of_nat N) (Z.max 0 (z - f)))) with N by lia.
      assert (Hall : forall j, (j < S N)%nat -> IZR f + INR j < retAge).
      { intros j Hj. pose proof (Hint j ltac:(lia)). lra. }
      rewrite find_map_seq_none.
      * rewrite find_map_seq_none.
        -- cbn [orElse]. apply lastRow_map_seq.
        -- intros j Hj. apply HgtF. left. apply Hall. lia.
      * intros j Hj. apply HeqF. pose proof (Hall j ltac:(lia)). lra.
Qed.

(** X9.  Among the rows of a simulation [atRet] is always defined: it
    picks the row of the first whole age at or after the retirement age,
    the first row when the retirement age lies before all of them and the
    last row when it lies after; the nominal balance it reports is the
    balance after twelve months per year of that row. *)
Theorem X9_atRet_row (p : Params) (retAge : R) :
  let k :=
    Z.to_nat (Z.min (Z.of_nat (nmonths p / 12))
                (Z.max 0 (Math_ceil retAge - Math_floor (currentAge p)))) in
  (k <= nmonths p / 12)%nat /\
  nth_error (rows (simulate p)) k = atRet retAge (rows (simulate p)) /\
  exists r, atRet retAge (rows (simulate p)) = Some r /\
    age r = (Math_floor (currentAge p) + Z.of_nat k)%Z /\
    nominal r = balAt p (12 * k).
Proof.
  intros k. assert (Hk : (k <= nmonths p / 12)%nat) by (subst k; lia).
  split; [exact Hk|]. rewrite atRet_simulate. fold k. split.
  - rewrite rows_simulate, nth_error_map, nth_error_seq.
    replace (k <? S (nmonths p / 12))%nat with true
      by (symmetry; apply Nat.ltb_lt; lia).
    reflexivity.
  - exists (yearRow p k). split; [reflexivity|].
    split; [apply yearRow_age | reflexivity].
Qed.

(** ** The scenarios of the component *)

Lemma nmonths_at_least (p : Params) (k : Z) :
  (1 <= k)%Z -> IZR k <= horizonYears p * 12 ->
  (Z.to_nat k <= nmonths p)%nat.
Proof.
  intros Hk H. unfold nmonths, months.
  assert ((k <= Math_round (horizonYears p * 12))%Z).
  { unfold Math_round. apply Zfloor_lub. lra. }
  lia.
Qed.

Lemma mkArgs_horizon (u : Inputs) (d feeP feeF : R) :
  1 <= horizonYears (mkArgs u d feeP feeF).
Proof. cbn. unfold ui_horizonYears. apply Rmax_l. Qed.

Lemma mkArgs_inflation (u : Inputs) (d feeP feeF : R) :
  0 <= inflationAnnual (mkArgs u d feeP feeF).
Proof.
  cbn. pose proof (Rmax_l 0 (ui_inflationPa (solverState u))). lra.
Qed.

(** X10.  Every scenario of the component runs at least twelve months,
    because its horizon is floored at one year: its rows hold at least
    one yearly row after the initial one, and its [endReal] is the
    deflated balance of the last twelve-month boundary, never the
    starting balance. *)
Theorem X10_scenarios_run_a_year (u : Inputs) (d feeP feeF : R) :
  let p := mkArgs u d feeP feeF in
  (12 <= nmonths p)%nat /\
  (2 <= length (rows (mk u d feeP feeF)))%nat /\
  endReal (mk u d feeP feeF) =
    balAt p (12 * (nmonths p / 12))
    / deflator p (Z.of_nat (12 * (nmonths p / 12))).
Proof.
  intros p.
  assert (H12 : (12 <= nmonths p)%nat).
  { apply (nmonths_at_least p 12); [lia|].
    pose proof (mkArgs_horizon u d feeP feeF). fold p in H. lra. }
  split; [exact H12|]. unfold mk. fold p. split.
  - rewrite rows_simulate, length_map, length_seq.
    pose proof (Nat.div_mod_eq (nmonths p) 12).
    pose proof (Nat.mod_upper_bound (nmonths p) 12). lia.
  - rewrite endReal_cases.
    replace (nmonths p <? 12)%nat with false
      by (symmetry; apply Nat.ltb_ge; exact H12).
    reflexivity.
Qed.

Lemma nmonths_whole_years (p : Params) (k : Z) :
  (1 <= k)%Z -> horizonYears p = IZR k ->
  nmonths p = (12 * Z.to_nat k)%nat.
Proof.
  intros Hk H. unfold nmonths, months. rewrite H.
  rewrite (Math_round_eq (k * 12)) by (rewrite mult_IZR; lra). lia.
Qed.

(** X11.  When the horizon of the component, [max(1, lifeExpectancy -
    currentAge)], is a whole number of years, every scenario runs a
    multiple of twelve months, its final real balance is at most its
    final nominal balance, and the two are equal when the inflation input
    is zero or negative. *)
Theorem X11_whole_years_real_le_nominal (u : Inputs) (d feeP feeF : R)
    (k : Z) (Hk : ui_horizonYears (solverState u) = IZR k) :
  (nmonths (mkArgs u d feeP feeF) mod 12 = 0)%nat /\
  endReal (mk u d feeP feeF) <= endNom (mk u d feeP feeF) /\
  (ui_inflationPa (solverState u) <= 0 ->
   endReal (mk u d feeP feeF) = endNom (mk u d feeP feeF)).
Proof.
  set (p := mkArgs u d feeP feeF).
  assert (Hk1 : (1 <= k)%Z).
  { apply le_IZR. rewrite <- Hk. unfold ui_horizonYears. apply Rmax_l. }
  assert (Hn : nmonths p = (12 * Z.to_nat k)%nat)
    by (apply nmonths_whole_years; [exact Hk1 | exact Hk]).
  assert (Hm : (nmonths p mod 12 = 0)%nat).
  { rewrite Hn, Nat.mul_comm. apply Nat.Div0.mod_mul. }
  split; [exact Hm|]. unfold mk. fold p.
  rewrite endReal_whole_years by exact Hm. rewrite endNom_balAt. split.
  - apply deflate_le;
      [apply mkArgs_inflation | lia | apply balAt_nonneg].
  - intros Hi. rewrite deflator_no_inflation; [lra|].
    cbn. rewrite Rmax_left by exact Hi. lra.
Qed.

Lemma X11_whole_years_real_le_nominal_witness :
  ui_horizonYears (solverState defaultInputs) = IZR 50 /\
  endReal (comp_now defaultInputs) <= endNom (comp_now defaultInputs).
Proof.
  assert (H : ui_horizonYears (solverState defaultInputs) = IZR 50).
  { unfold ui_horizonYears. cbn. solve_Rmax. }
  split; [exact H|].
  exact (proj1 (proj2
    (X11_whole_years_real_le_nominal defaultInputs 0 0.2 0 50 H))).
Defined.

(** ** Fee drag and cost of delay *)

Lemma atRet_nominal (p : Params) (retAge : R) :
  nominalOr0 (atRet retAge (rows (simulate p))) =
  balAt p (12 * retIndex p retAge).
Proof. rewrite atRet_simulate. reflexivity. Qed.

Lemma pct_bounds (a b : R) :
  0 < a -> 0 <= b ->
  (0 <= Math_round (Rmax 0 (a - b) / a * 100) <= 100)%Z.
Proof.
  intros Ha Hb.
  assert (H0 : 0 <= Rmax 0 (a - b)) by apply Rmax_l.
  assert (H1 : Rmax 0 (a - b) <= a) by (apply Rmax_lub; lra).
  assert (Hr : 0 <= Rmax 0 (a - b) / a <= 1).
  { split.
    - apply Rmult_le_pos; [exact H0 | left; now apply Rinv_0_lt_compat].
    - apply (Rmult_le_reg_r a); [exact Ha|]. unfold Rdiv.
      rewrite Rmult_assoc, Rinv_l by lra. lra. }
  set (x := Rmax 0 (a - b) / a * 100) in *.
  assert (Hlo : (Math_round (IZR 0) <= Math_round x)%Z)
    by (apply Math_round_le; subst x; lra).
  assert (Hhi : (Math_round x <= Math_round (IZR 100))%Z)
    by (apply Math_round_le; subst x; lra).
  rewrite Math_round_IZR in Hlo, Hhi. lia.
Qed.

(** X12.  Both fee-drag percentages of the component lie between 0 and
    100, whatever the inputs. *)
Theorem X12_fee_drag_percentages (u : Inputs) :
  (0 <= feeDragHznPct u <= 100)%Z /\ (0 <= feeDragRetPct u <= 100)%Z.
Proof.
  split.
  - unfold feeDragHznPct, feeDragAtHorizon.
    destruct (Rltb 0 (endNom (fees_diy u))) eqn:E; [|lia].
    apply Rltb_true in E. apply pct_bounds; [exact E|].
    unfold fees_advisor, mk. rewrite endNom_balAt. apply balAt_nonneg.
  - unfold feeDragRetPct, feeDragAtRet.
    destruct (Rltb 0 (nominalOr0 (atRet_of u (fees_diy u)))) eqn:E; [|lia].
    apply Rltb_true in E. apply pct_bounds; [exact E|].
    unfold atRet_of, fees_advisor, mk. rewrite atRet_nominal.
    apply balAt_nonneg.
Qed.

Lemma delay_balAt (p : Params) (d d' : R) (n : nat) :
  0 <= monthlySave p -> d <= d' ->
  balAt (withDelay p d') n <= balAt (withDelay p d) n.
Proof.
  intros Hsave Hd. apply dominated_balAt.
  - apply Req_le. reflexivity.
  - intros m b b'. now apply delay_dominated.
Qed.

(** X13.  When the adviser's fees are at least the DIY fees, in rate and
    in fixed amount, the adviser scenario is never ahead: the fee drag at
    the horizon and the fee drag at retirement are the plain differences
    of the two balances, the clamp at zero being idle. *)
Theorem X13_fee_drag_is_the_difference (u : Inputs)
    (Hpct : ui_diyFeePct (solverState u) <= ui_advisorFeePct u)
    (Hfix : ui_diyFixed u <= ui_advisorFixed u) :
  endNom (fees_advisor u) <= endNom (fees_diy u) /\
  feeDragAtHorizon u = endNom (fees_diy u) - endNom (fees_advisor u) /\
  feeDragAtRet u =
    nominalOr0 (atRet_of u (fees_diy u))
    - nominalOr0 (atRet_of u (fees_advisor u)).
Proof.
  set (pd := mkArgs u 0 (ui_diyFeePct (solverState u)) (ui_diyFixed u)).
  set (pa := mkArgs u 0 (ui_advisorFeePct u) (ui_advisorFixed u)).
  assert (Hpa : pa = withFees pd (Rmax 0 (ui_advisorFeePct u) / 100)
                       (Rmax 0 (ui_advisorFeePct u) / 100)
                       (Rmax 0 (ui_advisorFixed u))) by reflexivity.
  assert (Hrate : Rmax 0 (ui_diyFeePct (solverState u)) / 100
                  <= Rmax 0 (ui_advisorFeePct u) / 100).
  { assert (Rmax 0 (ui_diyFeePct (solverState u))
            <= Rmax 0 (ui_advisorFeePct u))
      by (apply Rle_max_compat_l; exact Hpct).
    lra. }
  assert (Hfixed : Rmax 0 (ui_diyFixed u) <= Rmax 0 (ui_advisorFixed u))
    by (apply Rle_max_compat_l; exact Hfix).
  assert (Hbal : forall n, balAt pa n <= balAt pd n).
  { intros n. rewrite Hpa. apply fees_balAt; assumption. }
  assert (Hend : endNom (fees_advisor u) <= endNom (fees_diy u)).
  { unfold fees_advisor, fees_diy, mk. fold pd pa. rewrite !endNom_balAt.
    change (nmonths pa) with (nmonths pd). apply Hbal. }
  split; [exact Hend|]. split.
  - unfold feeDragAtHorizon. apply Rmax_right. lra.
  - unfold feeDragAtRet, atRet_of, fees_advisor, fees_diy, mk. fold pd pa.
    rewrite !atRet_nominal.
    change (retIndex pa (ui_retirementAge (solverState u)))
      with (retIndex pd (ui_retirementAge (solverState u))).
    apply Rmax_right.
    pose proof (Hbal (12 * retIndex pd (ui_retirementAge (solverState u)))%nat).
    lra.
Qed.

Lemma X13_fee_drag_is_the_difference_witness :
  ui_diyFeePct (solverState defaultInputs) <= ui_advisorFeePct defaultInputs /\
  ui_diyFixed defaultInputs <= ui_advisorFixed defaultInputs /\
  endNom (fees_advisor defaultInputs) <= endNom (fees_diy defaultInputs).
Proof.
  assert (H1 : ui_diyFeePct (solverState defaultInputs)
               <= ui_advisorFeePct defaultInputs) by (simpl; lra).
  assert (H2 : ui_diyFixed defaultInputs <= ui_advisorFixed defaultInputs)
    by (simpl; lra).
  split; [exact H1|]. split; [exact H2|].
  exact (proj1 (X13_fee_drag_is_the_difference defaultInputs H1 H2)).
Defined.

(** X14.  When the monthly savings are not negative, delaying is never
    ahead of starting now: at the retirement row and at the horizon the
    delayed balance is at most the immediate one, and the cost of delay
    is the plain difference of the two retirement balances. *)
Theorem X14_cost_of_delay_is_the_difference (u : Inputs)
    (Hsave : 0 <= ui_monthlySave (solverState u)) :
  endNom (comp_delay u) <= endNom (comp_now u) /\
  nominalOr0 (atRet_of u (comp_delay u))
    <= nominalOr0 (atRet_of u (comp_now u)) /\
  costOfDelayAtRet u =
    nominalOr0 (atRet_of u (comp_now u))
    - nominalOr0 (atRet_of u (comp_delay u)).
Proof.
  set (pn := mkArgs u 0 (ui_diyFeePct (solverState u)) 0).
  set (pdl := mkArgs u (Rmax 0 (ui_delayYears (solverState u)))
                (ui_diyFeePct (solverState u)) 0).
  assert (Hbal : forall n, balAt pdl n <= balAt pn n).
  { intros n.
    change pdl with (withDelay pn (Rmax 0 (ui_delayYears (solverState u)))).
    change (balAt pn n) with (balAt (withDelay pn 0) n).
    apply delay_balAt; [exact Hsave | apply Rmax_l]. }
  assert (Hret : nominalOr0 (atRet_of u (comp_delay u))
                 <= nominalOr0 (atRet_of u (comp_now u))).
  { unfold atRet_of, comp_delay, comp_now, mk. fold pn pdl.
    rewrite !atRet_nominal.
    change (retIndex pdl (ui_retirementAge (solverState u)))
      with (retIndex pn (ui_retirementAge (solverState u))).
    apply Hbal. }
  split; [|split; [exact Hret|]].
  - unfold comp_delay, comp_now, mk. fold pn pdl. rewrite !endNom_balAt.
    change (nmonths pdl) with (nmonths pn). apply Hbal.
  - unfold costOfDelayAtRet. apply Rmax_right. lra.
Qed.

Lemma X14_cost_of_delay_is_the_difference_witness :
  0 <= ui_monthlySave (solverState defaultInputs) /\
  endNom (comp_delay defaultInputs) <= endNom (comp_now defaultInputs).
Proof.
  assert (H : 0 <= ui_monthlySave (solverState defaultInputs)) by (simpl; lra).
  split; [exact H|].
  exact (proj1 (X14_cost_of_delay_is_the_difference defaultInputs H)).
Defined.

(** ** The ticks of the age axis *)

Lemma ticksLoop_spec (step endAge : Z) (fuel : nat) (a : Z) :
  (1 <= step)%Z -> (Z.to_nat (endAge - a + 1) <= fuel)%nat ->
  ticksLoop step endAge fuel a =
  map (fun i => (a + Z.of_nat i * step)%Z)
    (seq 0 (Z.to_nat ((endAge - a) / step + 1))).
Proof.
  intros Hstep. revert a. induction fuel as [|fuel IH]; intros a Hfuel.
  - cbn [ticksLoop].
    assert ((endAge - a) / step < 0)%Z by (apply Z.div_lt_upper_bound; lia).
    replace (Z.to_nat ((endAge - a) / step + 1)) with 0%nat by lia.
    reflexivity.
  - cbn [ticksLoop]. destruct (a <=? endAge)%Z eqn:E.
    + apply Z.leb_le in E.
      assert (Hq : (0 <= (endAge - a) / step)%Z) by (apply Z.div_pos; lia).
      assert (Hdiv : ((endAge - (a + step)) / step
                      = (endAge - a) / step - 1)%Z).
      { replace (endAge - (a + step))%Z with (endAge - a + (-1) * step)%Z
          by lia.
        rewrite Z.div_add by lia. lia. }
      rewrite IH by lia. rewrite Hdiv.
      replace (Z.to_nat ((endAge - a) / step + 1))
        with (S (Z.to_nat ((endAge - a) / step - 1 + 1))) by lia.
      cbn [seq map]. f_equal; [lia|].
      rewrite <- seq_shift, map_map. apply map_ext. intros i. lia.
    + apply Z.leb_gt in E.
      assert ((endAge - a) / step < 0)%Z by (apply Z.div_lt_upper_bound; lia).
      replace (Z.to_nat ((endAge - a) / step + 1)) with 0%nat by lia.
      reflexivity.
Qed.

(** Any iteration budget of at least [endAge - a + 1] gives the same
    ticks. *)
Lemma ticksLoop_fuel (step endAge : Z) (fuel fuel' : nat) (a : Z) :
  (1 <= step)%Z ->
  (Z.to_nat (endAge - a + 1) <= fuel)%nat ->
  (Z.to_nat (endAge - a + 1) <= fuel')%nat ->
  ticksLoop step endAge fuel a = ticksLoop step endAge fuel' a.
Proof.
  intros Hstep H1 H2. now rewrite !ticksLoop_spec.
Qed.

Lemma ticksStep_pos (startAge endAge : Z) : (1 <= ticksStep startAge endAge)%Z.
Proof. unfold ticksStep. cbn zeta. lia. Qed.

Lemma ticksStep_covers (startAge endAge : Z) :
  (endAge - startAge <= 12 * ticksStep startAge endAge)%Z.
Proof.
  unfold ticksStep, Math_ceil. cbn zeta.
  set (span := Z.max 1 (endAge - startAge)).
  pose proof (Zceil_bound (IZR span / 12)) as [_ Hc].
  assert (Hs : (span <= 12 * Zceil (IZR span / 12))%Z).
  { apply le_IZR. rewrite mult_IZR. lra. }
  lia.
Qed.

(** The ticks in closed form: the multiples of the step from [startAge]
    up to [endAge], and [endAge] itself when the last multiple is not
    [endAge]. *)
Lemma ageTicks_spec (startAge endAge : Z) :
  let step := ticksStep startAge endAge in
  let count := Z.to_nat ((endAge - startAge) / step + 1) in
  ageTicks startAge endAge =
  map (fun i => (startAge + Z.of_nat i * step)%Z) (seq 0 count)
  ++ (if (startAge <=? endAge)%Z
         && (startAge + (endAge - startAge) / step * step =? endAge)%Z
      then [] else [endAge]).
Proof.
  intros step count. unfold ageTicks. cbn zeta. fold step.
  pose proof (ticksStep_pos startAge endAge) as Hstep. fold step in Hstep.
  rewrite ticksLoop_spec by (assumption || lia). fold count.
  destruct (startAge <=? endAge)%Z eqn:E.
  - apply Z.leb_le in E.
    assert (Hq : (0 <= (endAge - startAge) / step)%Z)
      by (apply Z.div_pos; lia).
    assert (Hc : count = S (Z.to_nat ((endAge - startAge) / step)))
      by (subst count; lia).
    rewrite Hc. unfold lastIsNot. rewrite seq_S, map_app, rev_app_distr.
    cbn [map rev app Nat.add]. rewrite Z2Nat.id by assumption.
    cbn [andb].
    destruct (startAge + (endAge - startAge) / step * step =? endAge)%Z;
      cbn [negb]; [now rewrite app_nil_r | reflexivity].
  - apply Z.leb_gt in E.
    assert ((endAge - startAge) / step < 0)%Z
      by (apply Z.div_lt_upper_bound; lia).
    replace count with 0%nat by (subst count; lia). reflexivity.
Qed.

(** X15.  The age axis always ends at [endAge] and has between one and
    thirteen ticks, one more than [maxTicks], whatever the two ages; when
    [endAge] is below [startAge] it is the only tick. *)
Theorem X15_ageTicks_end_and_count (startAge endAge : Z) :
  last (ageTicks startAge endAge) 0%Z = endAge /\
  (1 <= length (ageTicks startAge endAge) <= 13)%nat /\
  ((endAge < startAge)%Z -> ageTicks startAge endAge = [endAge]).
Proof.
  pose proof (ageTicks_spec startAge endAge) as Hspec. cbn zeta in Hspec.
  set (step := ticksStep startAge endAge) in *.
  pose proof (ticksStep_pos startAge endAge) as Hstep. fold step in Hstep.
  pose proof (ticksStep_covers startAge endAge) as Hcov. fold step in Hcov.
  set (q := ((endAge - startAge) / step)%Z) in *.
  destruct (Z_lt_le_dec endAge startAge) as [Hlt | Hle].
  - assert (q < 0)%Z by (apply Z.div_lt_upper_bound; lia).
    replace (Z.to_nat (q + 1)) with 0%nat in Hspec by lia.
    replace (startAge <=? endAge)%Z with false in Hspec
      by (symmetry; apply Z.leb_gt; lia).
    cbn in Hspec. rewrite Hspec. cbn. repeat split; lia.
  - assert (Hq0 : (0 <= q)%Z) by (apply Z.div_pos; lia).
    assert (Hq12 : (q <= 12)%Z).
    { apply Z.div_le_upper_bound; lia. }
    assert (Hmul : (q * step <= endAge - startAge)%Z).
    { subst q. rewrite Z.mul_comm. apply Z.mul_div_le. lia. }
    replace (startAge <=? endAge)%Z with true in Hspec
      by (symmetry; apply Z.leb_le; lia).
    cbn [andb] in Hspec.
    replace (Z.to_nat (q + 1)) with (S (Z.to_nat q)) in Hspec by lia.
    rewrite seq_S, map_app in Hspec. cbn [map Nat.add] in Hspec.
    rewrite Z2Nat.id in Hspec by assumption.
    destruct (startAge + q * step =? endAge)%Z eqn:E.
    + apply Z.eqb_eq in E. rewrite app_nil_r in Hspec. rewrite Hspec.
      rewrite last_last, length_app, length_map, length_seq. cbn [length].
      repeat split; lia.
    + apply Z.eqb_neq in E. rewrite Hspec.
      rewrite last_last, !length_app, length_map, length_seq. cbn [length].
      assert (q <> 12)%Z by nia.
      repeat split; lia.
Qed.

(** X16.  When [startAge] is at most [endAge] the age axis starts at
    [startAge], is strictly increasing, and stays between the two
    ages. *)
Theorem X16_ageTicks_increasing (startAge endAge : Z)
    (Hle : (startAge <= endAge)%Z) :
  nth_error (ageTicks startAge endAge) 0 = Some startAge /\
  (forall i j a b, (i < j)%nat ->
     nth_error (ageTicks startAge endAge) i = Some a ->
     nth_error (ageTicks startAge endAge) j = Some b ->
     (a < b)%Z) /\
  (forall a, In a (ageTicks startAge endAge) ->
     (startAge <= a <= endAge)%Z).
Proof.
  pose proof (ageTicks_spec startAge endAge) as Hspec. cbn zeta in Hspec.
  set (step := ticksStep startAge endAge) in *.
  pose proof (ticksStep_pos startAge endAge) as Hstep. fold step in Hstep.
  set (q := ((endAge - startAge) / step)%Z) in *.
  assert (Hq0 : (0 <= q)%Z) by (apply Z.div_pos; lia).
  assert (Hmul : (q * step <= endAge - startAge)%Z).
  { subst q. rewrite Z.mul_comm. apply Z.mul_div_le. lia. }
  replace (startAge <=? endAge)%Z with true in Hspec
    by (symmetry; apply Z.leb_le; lia).
  cbn [andb] in Hspec.
  set (f := fun i : nat => (startAge + Z.of_nat i * step)%Z) in *.
  set (count := Z.to_nat (q + 1)) in *.
  set (tail := if (startAge + q * step =? endAge)%Z then [] else [endAge])
    in *.
  assert (Hnth : forall i,
            nth_error (ageTicks startAge endAge) i =
            if (i <? count)%nat then Some (f i)
            else nth_error tail (i - count)).
  { intros i. rewrite Hspec. destruct (i <? count)%nat eqn:E.
    - apply Nat.ltb_lt in E.
      rewrite nth_error_app1 by (rewrite length_map, length_seq; exact E).
      rewrite nth_error_map, nth_error_seq.
      replace (i <? count)%nat with true by (symmetry; now apply Nat.ltb_lt).
      reflexivity.
    - apply Nat.ltb_ge in E.
      rewrite nth_error_app2 by (rewrite length_map, length_seq; exact E).
      now rewrite length_map, length_seq. }
  assert (Hf : forall i, (i < count)%nat ->
            (startAge <= f i <= startAge + q * step)%Z).
  { intros i Hi. subst f count. cbn beta. nia. }
  assert (Htail : forall k a, nth_error tail k = Some a ->
            a = endAge /\ (startAge + q * step < endAge)%Z).
  { intros k a. subst tail.
    destruct (startAge + q * step =? endAge)%Z eqn:E.
    - destruct k; discriminate.
    - apply Z.eqb_neq in E. destruct k as [|[|k]]; cbn; try discriminate.
      intros [= <-]. split; [reflexivity | lia]. }
  split; [|split].
  - rewrite Hnth.
    replace (0 <? count)%nat with true
      by (symmetry; apply Nat.ltb_lt; subst count; lia).
    subst f. cbn beta. f_equal. lia.
  - intros i j a b Hij Hi Hj. rewrite Hnth in Hi, Hj.
    destruct (j <? count)%nat eqn:Ej.
    + apply Nat.ltb_lt in Ej.
      replace (i <? count)%nat with true in Hi
        by (symmetry; apply Nat.ltb_lt; lia).
      injection Hi as <-. injection Hj as <-. subst f. cbn beta. nia.
    + destruct (Htail _ _ Hj) as [-> Hlt].
      destruct (i <? count)%nat eqn:Ei.
      * apply Nat.ltb_lt in Ei. injection Hi as <-.
        pose proof (Hf i Ei). lia.
      * apply Nat.ltb_ge in Ei. apply Nat.ltb_ge in Ej.
        exfalso. subst tail.
        destruct (startAge + q * step =? endAge)%Z.
        -- destruct (j - count)%nat; discriminate.
        -- destruct (j - count)%nat as [|k] eqn:Ek;
             [lia | destruct k; discriminate].
  - intros a Ha. apply In_nth_error in Ha. destruct Ha as [i Hi].
    rewrite Hnth in Hi. destruct (i <? count)%nat eqn:Ei.
    + apply Nat.ltb_lt in Ei. injection Hi as <-.
      pose proof (Hf i Ei). lia.
    + destruct (Htail _ _ Hi) as [-> _]. lia.
Qed.

Lemma X16_ageTicks_increasing_witness :
  (40 <= 90)%Z /\ nth_error (ageTicks 40 90) 0 = Some 40%Z.
Proof.
  assert (H : (40 <= 90)%Z) by lia.
  split; [exact H|].
  exact (proj1 (X16_ageTicks_increasing 40 90 H)).
Defined.

(** ** Clamping and the age inputs *)

Lemma clamp_le_hi (v lo hi : R) : clamp v lo hi <= hi.
Proof. unfold clamp. apply Rmin_r. Qed.

Lemma clamp_range (v lo hi : R) : lo <= hi -> lo <= clamp v lo hi <= hi.
Proof.
  intros H. unfold clamp. split; [|apply Rmin_r].
  apply Rmin_glb; [apply Rmax_r | exact H].
Qed.

(** X17.  [clamp] never exceeds its upper bound; with bounds in order the
    result lies between them and a value already between them is
    returned unchanged; with bounds out of order the result is the upper
    bound, below the lower one; and clamping twice is clamping once. *)
Theorem X17_clamp (v lo hi : R) :
  clamp v lo hi <= hi /\
  (lo <= hi -> lo <= clamp v lo hi <= hi) /\
  (lo <= v <= hi -> clamp v lo hi = v) /\
  (hi < lo -> clamp v lo hi = hi) /\
  clamp (clamp v lo hi) lo hi = clamp v lo hi.
Proof.
  split; [apply clamp_le_hi|]. split; [apply clamp_range|].
  unfold clamp. repeat split.
  - intros [H1 H2]. rewrite Rmax_left by exact H1. now apply Rmin_left.
  - intros H. apply Rmin_right. pose proof (Rmax_r v lo). lra.
  - fold (clamp v lo hi). destruct (Rle_lt_dec lo hi) as [Hle | Hlt].
    + pose proof (clamp_range v lo hi Hle) as [Ha Hb].
      rewrite Rmax_left by exact Ha. now apply Rmin_left.
    + assert (Hc : clamp v lo hi = hi).
      { unfold clamp. apply Rmin_right. pose proof (Rmax_r v lo). lra. }
      rewrite Hc. apply Rmin_right. pose proof (Rmax_r hi lo). lra.
Qed.

(** X18.  The three age handlers keep the ages in order: from a state
    with [0 <= currentAge], [currentAge + 1 <= retirementAge <= 100],
    whatever value an input delivers, the next state satisfies the same;
    and in such a state every scenario has at least twelve months before
    retirement. *)
Theorem X18_age_handlers_keep_order (u : AppState) (v : R)
    (Hu : agesOrdered u) :
  agesOrdered (onCurrentAge u v) /\
  agesOrdered (onRetirementAge u v) /\
  agesOrdered (onLifeExpectancy u v) /\
  (12 <= toRet (solverParams u))%Z.
Proof.
  destruct Hu as (H0 & H1 & H2).
  split; [|split; [|split]].
  - unfold agesOrdered, onCurrentAge. cbn.
    pose proof (clamp_range v 0 (ui_retirementAge u - 1) ltac:(lra)). lra.
  - unfold agesOrdered, onRetirementAge. cbn.
    pose proof (clamp_range v (ui_currentAge u + 1) 100 ltac:(lra)). lra.
  - unfold agesOrdered, onLifeExpectancy. cbn. lra.
  - unfold toRet. cbn [solverParams retirementAge currentAge].
    assert ((12 <= Math_round ((ui_retirementAge u - ui_currentAge u) * 12))%Z).
    { unfold Math_round. apply Zfloor_lub. lra. }
    lia.
Qed.

Lemma X18_age_handlers_keep_order_witness :
  agesOrdered (solverState defaultInputs) /\
  agesOrdered (onRetirementAge (solverState defaultInputs) 100).
Proof.
  assert (H : agesOrdered (solverState defaultInputs)).
  { unfold agesOrdered. cbn. lra. }
  split; [exact H|].
  exact (proj1 (proj2
    (X18_age_handlers_keep_order (solverState defaultInputs) 100 H))).
Defined.

(** ** The value of the solver *)

(** X19.  The solver always returns a whole number between 0 and
    51 200 000. *)
Theorem X19_result_is_a_whole_number (p : Params) (lifeExpectancy : R) :
  exists z : Z, (0 <= z <= 51200000)%Z /\
    findSustainableSpend p lifeExpectancy = IZR z.
Proof.
  destruct (zeroDepleted p lifeExpectancy) eqn:Hz.
  - exists 0%Z. split; [lia | now apply find_zero].
  - destruct (Rle_lt_dec max (bracket p lifeExpectancy 9 hi0)) as [Hc|Hc].
    + exists 51200000%Z. split; [lia | now apply find_ceiling].
    + destruct (find_bisect_lo p lifeExpectancy Hz Hc) as [[Hlo Hhi] _].
      cbn zeta in Hlo, Hhi.
      set (lo := fst (bisect p lifeExpectancy 34 0
                        (bracket p lifeExpectancy 9 hi0))) in *.
      exists (Math_round lo). split; [|now apply find_bisect].
      pose proof (Math_round_le 0 lo Hlo) as H0.
      pose proof (Math_round_le lo 25600000 Hhi) as H1.
      rewrite (Math_round_IZR 0) in H0.
      rewrite (Math_round_IZR 25600000) in H1. lia.
Qed.

(** ** Depletion *)

Lemma balAt_raw_pos (p : Params) (n : nat) :
  0 < rawAt p (S n) -> balAt p (S n) = rawAt p (S n).
Proof. intros H. rewrite balAt_S. apply Rmax_right. lra. Qed.

Lemma balAt_raw_nonpos (p : Params) (n : nat) :
  rawAt p (S n) <= 0 -> balAt p (S n) = 0.
Proof. intros H. rewrite balAt_S. now apply Rmax_left. Qed.

(** X20.  For a current age that is not negative and an inflation rate
    above -1: when [depletedAgeExact] is [null] the final balance is
    positive and [depletedAge] is [null] too; otherwise the exact
    depletion age is the age of a simulated month at which the balance is
    zero, it lies between [currentAge + 1/12] and [currentAge + months/12],
    and [depletedAge] is its floor. *)
Theorem X20_depletion_age (p : Params)
    (Hage : 0 <= currentAge p) (Hinfl : -1 < inflationAnnual p) :
  match depletedAgeExact (simulate p) with
  | None => depletedAge (simulate p) = None /\ 0 < endNom (simulate p)
  | Some a =>
      depletedAge (simulate p) = Some (Math_floor a) /\
      currentAge p + 1 / 12 <= a <= currentAge p + INR (nmonths p) / 12 /\
      exists m, (1 <= m <= nmonths p)%nat /\
        a = currentAge p + INR m / 12 /\ balAt p m = 0
  end.
Proof.
  rewrite depletedAge_exact, endNom_balAt, simulate_state.
  cbn [depletedAgeExact].
  pose proof (nmonths_pos p) as Hn.
  destruct (dep_cases p Hage (nmonths p))
    as [[Hd Hall] | (m & Hm & Hd & Hneg & _)]; rewrite Hd.
  - split; [reflexivity|].
    destruct (nmonths p) as [|n]; [lia|].
    rewrite balAt_raw_pos; apply Hall; lia.
  - rewrite truthyR_ageAt by (assumption || lia). cbn [option_map].
    assert (Ha : ageAt p (Z.of_nat m) = currentAge p + INR m / 12).
    { unfold ageAt. now rewrite <- INR_IZR_INZ. }
    split; [reflexivity|]. rewrite Ha. split.
    + assert (1 <= INR m) by (change 1 with (INR 1); apply le_INR; lia).
      assert (INR m <= INR (nmonths p)) by (apply le_INR; lia).
      lra.
    + exists m. split; [exact Hm|]. split; [reflexivity|].
      destruct m as [|m]; [lia|]. now apply balAt_raw_nonpos.
Qed.

Lemma X20_depletion_age_witness :
  0 <= currentAge thirteenMonths /\ -1 < inflationAnnual thirteenMonths /\
  match depletedAgeExact (simulate thirteenMonths) with
  | None => 0 < endNom (simulate thirteenMonths)
  | Some a => currentAge thirteenMonths + 1 / 12 <= a
  end.
Proof.
  assert (Ha : 0 <= currentAge thirteenMonths) by (simpl; lra).
  assert (Hi : -1 < inflationAnnual thirteenMonths) by (simpl; lra).
  split; [exact Ha|]. split; [exact Hi|].
  pose proof (X20_depletion_age thirteenMonths Ha Hi) as H.
  destruct (depletedAgeExact (simulate thirteenMonths)).
  - exact (proj1 (proj1 (proj2 H))).
  - exact (proj2 H).
Defined.

(** X21.  For an annual spend that is not negative and an inflation rate
    above -1, zero is absorbing after retirement: once the balance is
    zero at a month at or after [toRet], it is zero at every later
    month. *)
Theorem X21_zero_is_absorbing_after_retirement (p : Params) (n k : nat)
    (Hspend : 0 <= annualSpendToday p) (Hinfl : -1 < inflationAnnual p)
    (Hn : (toRet p <= Z.of_nat n)%Z) (H0 : balAt p n = 0) :
  balAt p (n + k) = 0.
Proof.
  induction k as [|k IH].
  - now rewrite Nat.add_0_r.
  - rewrite Nat.add_succ_r. apply balAt_raw_nonpos.
    unfold rawAt. cbn [pred]. rewrite IH.
    rewrite rawBalance_post by lia.
    assert (0 < Rpower (1 + mInfl p)
                  (IZR (Z.of_nat (S (n + k)) - toRet p)))
      by (unfold Rpower; apply exp_pos).
    assert (0 <= mFix p).
    { unfold mFix. pose proof (Rmax_l 0 (fixedFeeAnnual p)). lra. }
    nra.
Qed.

Lemma X21_zero_is_absorbing_after_retirement_witness :
  0 <= annualSpendToday thirteenMonths /\
  -1 < inflationAnnual thirteenMonths /\
  (toRet thirteenMonths <= Z.of_nat 13)%Z /\
  balAt thirteenMonths 13 = 0 /\
  balAt thirteenMonths (13 + 5) = 0.
Proof.
  assert (Hs : 0 <= annualSpendToday thirteenMonths) by (simpl; lra).
  assert (Hi : -1 < inflationAnnual thirteenMonths) by (simpl; lra).
  assert (Hn : (toRet thirteenMonths <= Z.of_nat 13)%Z)
    by (rewrite thirteenMonths_toRet; lia).
  assert (H0 : balAt thirteenMonths 13 = 0).
  { apply balAt_raw_nonpos. rewrite thirteenMonths_raw13.
    pose proof (one_plus_mInfl_pos thirteenMonths). lra. }
  split; [exact Hs|]. split; [exact Hi|]. split; [exact Hn|].
  split; [exact H0|].
  exact (X21_zero_is_absorbing_after_retirement thirteenMonths 13 5
           Hs Hi Hn H0).
Defined.

(** ** Growth without cash flows *)

Lemma mPre_above_minus_1 (p : Params) : 0 < 1 + mPre p.
Proof.
  unfold mPre, Math_pow, Rpower.
  pose proof (exp_pos (1 / 12 * ln (1 + preNet p))). lra.
Qed.

(** X22.  Before retirement, without savings and without a fixed fee, the
    balance grows geometrically: after [n <= toRet] months it is the
    starting balance times [(1 + mPre) ^ n], and after [k] whole years
    it is the starting balance times [(1 + preNet) ^ k], the net annual
    rate compounded yearly. *)
Theorem X22_compound_growth (p : Params)
    (Hsave : monthlySave p = 0) (Hfix : fixedFeeAnnual p <= 0) :
  (forall n, (Z.of_nat n <= toRet p)%Z ->
     balAt p n = Rmax 0 (startAssets p) * (1 + mPre p) ^ n) /\
  (forall k, (Z.of_nat (12 * k) <= toRet p)%Z ->
     balAt p (12 * k) = Rmax 0 (startAssets p) * (1 + preNet p) ^ k).
Proof.
  assert (H : forall n, (Z.of_nat n <= toRet p)%Z ->
            balAt p n = Rmax 0 (startAssets p) * (1 + mPre p) ^ n).
  { intros n Hn.
    apply (traj_bal p (fun n => Rmax 0 (startAssets p) * (1 + mPre p) ^ n)).
    - simpl. lra.
    - intros k Hk. split.
      + rewrite rawBalance_pre by lia.
        rewrite (mFix_zero p Hfix), Hsave.
        destruct k as [|k]; [lia|]. cbn [pred pow].
        destruct (dly p <? Z.of_nat (S k))%Z; lra.
      + apply Rmult_le_pos; [apply Rmax_l|].
        apply pow_le. left. apply mPre_above_minus_1. }
  split; [exact H|]. intros k Hk. rewrite H by exact Hk.
  now rewrite pow_mult, mPre_compound.
Qed.

Lemma X22_compound_growth_witness :
  monthlySave (mkParams 40 60 50 200000 0 0.08 0.025 0 0 0 0.002 0.002 0) = 0 /\
  fixedFeeAnnual (mkParams 40 60 50 200000 0 0.08 0.025 0 0 0 0.002 0.002 0)
    <= 0 /\
  balAt (mkParams 40 60 50 200000 0 0.08 0.025 0 0 0 0.002 0.002 0) (12 * 1)
  = Rmax 0 200000 *
    (1 + preNet (mkParams 40 60 50 200000 0 0.08 0.025 0 0 0 0.002 0.002 0))
    ^ 1.
Proof.
  assert (Hs : monthlySave
    (mkParams 40 60 50 200000 0 0.08 0.025 0 0 0 0.002 0.002 0) = 0)
    by reflexivity.
  assert (Hf : fixedFeeAnnual
    (mkParams 40 60 50 200000 0 0.08 0.025 0 0 0 0.002 0.002 0) <= 0)
    by (simpl; lra).
  split; [exact Hs|]. split; [exact Hf|].
  apply (proj2 (X22_compound_growth _ Hs Hf) 1%nat).
  unfold toRet. cbn [retirementAge currentAge].
  rewrite (Math_round_eq 240) by lra. lia.
Defined.

(** ** The sanitised client name *)

Lemma replaceRuns_head (s : list N) :
  match replaceRuns true s with
  | [] => True
  | c :: _ => isAlnum c = true
  end.
Proof.
  induction s as [|c s IH]; cbn [replaceRuns]; [exact I|].
  destruct (isAlnum c) eqn:E; [exact E | exact IH].
Qed.

Lemma replaceRuns_true_false (s : list N) :
  match s with [] => True | c :: _ => isAlnum c = true end ->
  replaceRuns true s = replaceRuns false s.
Proof.
  destruct s as [|c s]; [reflexivity|]. cbn [replaceRuns].
  now intros ->.
Qed.

Lemma replaceRuns_chars (b : bool) (s : list N) :
  Forall (fun c => isAlnum c = true \/ c = underscore) (replaceRuns b s).
Proof.
  revert b. induction s as [|c s IH]; intros b; cbn [replaceRuns];
    [constructor|].
  destruct (isAlnum c) eqn:E.
  - constructor; [left; exact E | apply IH].
  - destruct b; [apply IH|]. constructor; [right; reflexivity | apply IH].
Qed.

Lemma replaceRuns_noDouble (b : bool) (s : list N) :
  noDoubleUnderscore (replaceRuns b s) = true.
Proof.
  revert b. induction s as [|c s IH]; intros b; cbn [replaceRuns];
    [reflexivity|].
  destruct (isAlnum c) eqn:E.
  - specialize (IH false). cbn [noDoubleUnderscore].
    destruct (replaceRuns false s) as [|d t]; [reflexivity|].
    rewrite IH, andb_true_r.
    assert (Hc : (c =? underscore)%N = false).
    { apply N.eqb_neq. intros ->. discriminate. }
    now rewrite Hc.
  - destruct b; [apply IH|].
    pose proof (replaceRuns_head s) as Hh. specialize (IH true).
    cbn [noDoubleUnderscore].
    destruct (replaceRuns true s) as [|d t]; [reflexivity|].
    rewrite IH, andb_true_r.
    assert (Hd : (d =? underscore)%N = false).
    { apply N.eqb_neq. intros ->. discriminate. }
    now rewrite Hd, andb_false_r.
Qed.

Lemma replaceRuns_length (b : bool) (s : list N) :
  (length (replaceRuns b s) <= length s)%nat.
Proof.
  revert b. induction s as [|c s IH]; intros b; cbn [replaceRuns length];
    [lia|].
  destruct (isAlnum c); [specialize (IH false); cbn [length]; lia|].
  destruct b; specialize (IH true); cbn [length]; lia.
Qed.

Lemma replaceRuns_idem (b : bool) (s : list N) :
  replaceRuns false (replaceRuns b s) = replaceRuns b s.
Proof.
  revert b. induction s as [|c s IH]; intros b; cbn [replaceRuns];
    [reflexivity|].
  destruct (isAlnum c) eqn:E.
  - cbn [replaceRuns]. now rewrite E, IH.
  - destruct b; [apply IH|]. cbn [replaceRuns].
    change (isAlnum underscore) with false. cbn iota.
    rewrite replaceRuns_true_false by apply replaceRuns_head.
    now rewrite IH.
Qed.

Lemma replaceRuns_alnum (s : list N) :
  Forall (fun c => isAlnum c = true) s -> replaceRuns false s = s.
Proof.
  induction 1 as [|c s Hc _ IH]; cbn [replaceRuns]; [reflexivity|].
  now rewrite Hc, IH.
Qed.

(** X23.  The client name that goes into the file name of the export
    holds only ASCII letters, digits and underscores, never two
    underscores in a row, and is no longer than the name typed; a name of
    letters and digits is kept as it is, and sanitising twice changes
    nothing more. *)
Theorem X23_sanitised_client_name (client : list N) :
  Forall (fun c => isAlnum c = true \/ c = underscore)
    (sanitizeClient client) /\
  noDoubleUnderscore (sanitizeClient client) = true /\
  (length (sanitizeClient client) <= length client)%nat /\
  (Forall (fun c => isAlnum c = true) client ->
   sanitizeClient client = client) /\
  sanitizeClient (sanitizeClient client) = sanitizeClient client.
Proof.
  unfold sanitizeClient. split; [apply replaceRuns_chars|].
  split; [apply replaceRuns_noDouble|].
  split; [apply replaceRuns_length|].
  split; [apply replaceRuns_alnum | apply replaceRuns_idem].
Qed.

(** ** The rows of the chart *)

Lemma mapSet_In_key (k : Z) (v : ChartRow) (m : list (Z * ChartRow)) (a : Z) :
  In a (map fst (mapSet k v m)) <-> a = k \/ In a (map fst m).
Proof.
  induction m as [|[k' v'] m IH]; cbn [mapSet map fst In].
  - intuition congruence.
  - destruct (k' =? k)%Z eqn:E; cbn [map fst In].
    + apply Z.eqb_eq in E. subst k'. intuition congruence.
    + rewrite IH. intuition congruence.
Qed.

Lemma mapSet_NoDup (k : Z) (v : ChartRow) (m : list (Z * ChartRow)) :
  NoDup (map fst m) -> NoDup (map fst (mapSet k v m)).
Proof.
  induction m as [|[k' v'] m IH]; cbn [mapSet map fst]; intros H.
  - constructor; [intros [] | constructor].
  - inversion H as [|? ? Hnin Hnd]; subst.
    destruct (k' =? k)%Z eqn:E; cbn [map fst].
    + constructor; assumption.
    + apply Z.eqb_neq in E. constructor; [|now apply IH].
      rewrite mapSet_In_key. intuition congruence.
Qed.

Lemma mapSet_keyed (k : Z) (v : ChartRow) (m : list (Z * ChartRow)) :
  c_age v = k ->
  Forall (fun e => c_age (snd e) = fst e) m ->
  Forall (fun e => c_age (snd e) = fst e) (mapSet k v m).
Proof.
  intros Hv. induction 1 as [|[k' v'] m He Hm IH]; cbn [mapSet].
  - constructor; [exact Hv | constructor].
  - destruct (k' =? k)%Z eqn:E.
    + apply Z.eqb_eq in E. subst k'. constructor; [exact Hv | exact Hm].
    + constructor; [exact He | exact IH].
Qed.

Lemma mapGet_keyed (k : Z) (m : list (Z * ChartRow)) (p : ChartRow) :
  Forall (fun e => c_age (snd e) = fst e) m ->
  mapGet k m = Some p -> c_age p = k.
Proof.
  induction 1 as [|[k' v'] m He Hm IH]; cbn [mapGet]; [discriminate|].
  destruct (k' =? k)%Z eqn:E.
  - apply Z.eqb_eq in E. intros [= <-]. cbn in He. lia.
  - exact IH.
Qed.

Lemma setBase_ok (m : list (Z * ChartRow)) (r : Row) :
  chartMapOk m -> chartMapOk (setBase m r).
Proof.
  intros [H1 H2]. split; [now apply mapSet_NoDup|].
  now apply mapSet_keyed.
Qed.

Lemma setCompare_ok (m : list (Z * ChartRow)) (r : Row) :
  chartMapOk m -> chartMapOk (setCompare m r).
Proof.
  intros [H1 H2]. split; [now apply mapSet_NoDup|].
  apply mapSet_keyed; [|exact H2]. cbn [withCompare c_age].
  destruct (mapGet (age r) m) as [p|] eqn:E; [|reflexivity].
  now apply (mapGet_keyed _ m).
Qed.

Lemma fold_ok (f : list (Z * ChartRow) -> Row -> list (Z * ChartRow))
    (rs : list Row) (m : list (Z * ChartRow)) :
  (forall m r, chartMapOk m -> chartMapOk (f m r)) ->
  (forall m r a, In a (map fst (f m r)) <-> a = age r \/ In a (map fst m)) ->
  chartMapOk m ->
  chartMapOk (fold_left f rs m) /\
  forall a, In a (map fst (fold_left f rs m)) <->
            In a (map age rs) \/ In a (map fst m).
Proof.
  intros Hok Hkeys. revert m. induction rs as [|r rs IH]; intros m Hm.
  - cbn. split; [exact Hm | intuition].
  - cbn [fold_left map In].
    destruct (IH (f m r) (Hok m r Hm)) as [H1 H2]. split; [exact H1|].
    intros a. rewrite H2, Hkeys. intuition congruence.
Qed.

Lemma insertByAge_perm (x : ChartRow) (l : list ChartRow) :
  Permutation (insertByAge x l) (x :: l).
Proof.
  induction l as [|y l IH]; cbn [insertByAge]; [reflexivity|].
  destruct (c_age x <=? c_age y)%Z; [reflexivity|].
  rewrite IH. apply perm_swap.
Qed.

Lemma sortByAge_perm (l : list ChartRow) : Permutation (sortByAge l) l.
Proof.
  induction l as [|x l IH]; cbn [sortByAge fold_right]; [reflexivity|].
  fold (sortByAge l). rewrite insertByAge_perm. now constructor.
Qed.

Lemma insertByAge_sorted (x : ChartRow) (l : list ChartRow) :
  StronglySorted Z.le (map c_age l) ->
  StronglySorted Z.le (map c_age (insertByAge x l)).
Proof.
  induction l as [|y l IH]; cbn [insertByAge map]; intros H.
  - constructor; [constructor | constructor].
  - inversion H as [|? ? Hs Hall]; subst.
    destruct (c_age x <=? c_age y)%Z eqn:E; cbn [map].
    + apply Z.leb_le in E. constructor; [exact H|].
      constructor; [exact E|].
      eapply Forall_impl; [|exact Hall]. intros a Ha. cbn beta in Ha. lia.
    + apply Z.leb_gt in E. constructor; [now apply IH|].
      apply Forall_forall. intros a Ha.
      apply (Permutation_in a (Permutation_map c_age (insertByAge_perm x l)))
        in Ha.
      cbn [map In] in Ha. destruct Ha as [<- | Ha]; [lia|].
      rewrite Forall_forall in Hall. now apply Hall.
Qed.

Lemma sortByAge_sorted (l : list ChartRow) :
  StronglySorted Z.le (map c_age (sortByAge l)).
Proof.
  induction l as [|x l IH]; cbn [sortByAge fold_right]; [constructor|].
  fold (sortByAge l). now apply insertByAge_sorted.
Qed.

Lemma sorted_nodup_strict (l : list Z) :
  StronglySorted Z.le l -> NoDup l -> StronglySorted Z.lt l.
Proof.
  induction 1 as [|a l Hs IH Hall]; intros Hnd; [constructor|].
  inversion Hnd as [|? ? Hnin Hnd']; subst.
  constructor; [now apply IH|].
  rewrite Forall_forall in *. intros b Hb.
  specialize (Hall b Hb). assert (a <> b) by (intros ->; contradiction). lia.
Qed.

Lemma keyed_ages (m : list (Z * ChartRow)) :
  Forall (fun e => c_age (snd e) = fst e) m ->
  map c_age (map snd m) = map fst m.
Proof.
  induction 1 as [|e m He _ IH]; cbn [map]; [reflexivity|].
  now rewrite He, IH.
Qed.

(** X24.  Whatever two row lists it is given, the chart gets rows of
    strictly increasing age, one for every age that occurs in either
    list and none for any other age. *)
Theorem X24_chart_rows_by_age (A B : list Row) :
  StronglySorted Z.lt (map c_age (chartRows A B)) /\
  forall a, In a (map c_age (chartRows A B)) <->
            In a (map age A) \/ In a (map age B).
Proof.
  unfold chartRows. cbn zeta.
  assert (H0 : chartMapOk []) by (split; constructor).
  destruct (fold_ok setBase A [] setBase_ok
              (fun m r a => mapSet_In_key (age r) _ m a) H0) as [HA HkA].
  destruct (fold_ok setCompare B _ setCompare_ok
              (fun m r a => mapSet_In_key (age r) _ m a) HA) as [HB HkB].
  set (m := fold_left setCompare B (fold_left setBase A [])) in *.
  destruct HB as [Hnd Hkeyed].
  pose proof (Permutation_map c_age (sortByAge_perm (map snd m))) as Hperm.
  rewrite (keyed_ages m Hkeyed) in Hperm.
  split.
  - apply sorted_nodup_strict; [apply sortByAge_sorted|].
    apply (Permutation_NoDup (Permutation_sym Hperm) Hnd).
  - intros a. split.
    + intros Ha. apply (Permutation_in a Hperm) in Ha.
      apply HkB in Ha. destruct Ha as [Ha | Ha]; [now right|].
      apply HkA in Ha. destruct Ha as [Ha | []]. now left.
    + intros Ha. apply (Permutation_in a (Permutation_sym Hperm)).
      apply HkB. destruct Ha as [Ha | Ha]; [right | now left].
      apply HkA. now left.
Qed.

Lemma mapSet_fresh (k : Z) (v : ChartRow) (m : list (Z * ChartRow)) :
  ~ In k (map fst m) -> mapSet k v m = m ++ [(k, v)].
Proof.
  induction m as [|[k' v'] m IH]; cbn [mapSet map fst In app]; intros H.
  - reflexivity.
  - replace (k' =? k)%Z with false
      by (symmetry; apply Z.eqb_neq; intuition).
    rewrite IH by intuition. reflexivity.
Qed.

Lemma mapSet_middle (k : Z) (v v0 : ChartRow) (l1 l2 : list (Z * ChartRow)) :
  ~ In k (map fst l1) ->
  mapSet k v (l1 ++ (k, v0) :: l2) = l1 ++ (k, v) :: l2.
Proof.
  induction l1 as [|[k' v'] l1 IH]; cbn [mapSet map fst In app]; intros H.
  - now rewrite Z.eqb_refl.
  - replace (k' =? k)%Z with false
      by (symmetry; apply Z.eqb_neq; intuition).
    rewrite IH by intuition. reflexivity.
Qed.

Lemma mapGet_middle (k : Z) (v0 : ChartRow) (l1 l2 : list (Z * ChartRow)) :
  ~ In k (map fst l1) ->
  mapGet k (l1 ++ (k, v0) :: l2) = Some v0.
Proof.
  induction l1 as [|[k' v'] l1 IH]; cbn [mapGet map fst In app]; intros H.
  - now rewrite Z.eqb_refl.
  - replace (k' =? k)%Z with false
      by (symmetry; apply Z.eqb_neq; intuition).
    apply IH. intuition.
Qed.

Lemma fold_setBase_fresh (rs : list Row) (m : list (Z * ChartRow)) :
  NoDup (map age rs) ->
  (forall r, In r rs -> ~ In (age r) (map fst m)) ->
  fold_left setBase rs m =
  m ++ map (fun r => (age r, mkChartRow (age r) (Some (nominal r))
                               (Some (real r)) None)) rs.
Proof.
  revert m. induction rs as [|r rs IH]; intros m Hnd Hfresh.
  - cbn. now rewrite app_nil_r.
  - cbn [fold_left map]. inversion Hnd as [|? ? Hnin Hnd']; subst.
    unfold setBase at 2. rewrite mapSet_fresh by (apply Hfresh; now left).
    rewrite IH; [now rewrite <- app_assoc | exact Hnd' |].
    intros r' Hr'. rewrite map_app, in_app_iff. cbn [map fst In].
    intros [H | [H | []]].
    + apply (Hfresh r'); [now right | exact H].
    + apply Hnin. rewrite H. now apply in_map.
Qed.

Lemma fold_setCompare_aligned (rs bs : list Row) (done : list (Z * ChartRow)) :
  map age rs = map age bs ->
  NoDup (map fst done ++ map age rs) ->
  fold_left setCompare bs
    (done ++ map (fun r => (age r, mkChartRow (age r) (Some (nominal r))
                                     (Some (real r)) None)) rs) =
  done ++ map (fun ab => (age (fst ab), mergedRow ab)) (combine rs bs).
Proof.
  revert bs done. induction rs as [|r rs IH]; intros bs done Hages Hnd.
  - destruct bs; [|discriminate]. reflexivity.
  - destruct bs as [|b bs]; [discriminate|].
    cbn [map] in Hages. injection Hages as Hab Hages.
    cbn [fold_left map combine].
    assert (Hnin : ~ In (age r) (map fst done)).
    { intros Hin. apply NoDup_remove_2 in Hnd. apply Hnd.
      apply in_or_app. now left. }
    unfold setCompare at 2. rewrite <- Hab.
    rewrite mapGet_middle by exact Hnin.
    rewrite mapSet_middle by exact Hnin.
    change (done ++ (age r, withCompare _ b) :: ?l)
      with (done ++ [(age r, mergedRow (r, b))] ++ l).
    rewrite app_assoc, IH; [now rewrite <- app_assoc | exact Hages |].
    rewrite map_app. cbn [map fst app]. rewrite <- app_assoc. exact Hnd.
Qed.

Lemma sortByAge_sorted_id (l : list ChartRow) :
  StronglySorted Z.le (map c_age l) -> sortByAge l = l.
Proof.
  induction l as [|x l IH]; cbn [sortByAge fold_right map]; intros H;
    [reflexivity|].
  inversion H as [|? ? Hs Hall]; subst. fold (sortByAge l).
  rewrite IH by exact Hs. destruct l as [|y l]; [reflexivity|].
  cbn [insertByAge]. inversion Hall as [|? ? Hxy _]; subst.
  now replace (c_age x <=? c_age y)%Z with true
    by (symmetry; apply Z.leb_le; exact Hxy).
Qed.

Lemma strict_sorted_le (l : list Z) :
  StronglySorted Z.lt l -> StronglySorted Z.le l.
Proof.
  induction 1 as [|a l Hs IH Hall]; constructor; [exact IH|].
  eapply Forall_impl; [|exact Hall]. intros b Hb. cbn beta in Hb. lia.
Qed.

Lemma strict_sorted_nodup (l : list Z) : StronglySorted Z.lt l -> NoDup l.
Proof.
  induction 1 as [|a l Hs IH Hall]; constructor; [|exact IH].
  intros Hin. rewrite Forall_forall in Hall. specialize (Hall a Hin). lia.
Qed.

(** Two row lists with the same strictly increasing ages are merged row
    by row. *)
Lemma chartRows_aligned (rs bs : list Row) :
  map age rs = map age bs ->
  StronglySorted Z.lt (map age rs) ->
  chartRows rs bs = map mergedRow (combine rs bs).
Proof.
  intros Hages Hsorted. unfold chartRows. cbn zeta.
  pose proof (strict_sorted_nodup _ Hsorted) as Hnd.
  rewrite fold_setBase_fresh by (assumption || (intros r _ [])).
  rewrite (fold_setCompare_aligned rs bs []) by assumption.
  cbn [app]. rewrite map_map. cbn [snd].
  apply sortByAge_sorted_id.
  assert (Hc : map c_age (map mergedRow (combine rs bs)) = map age rs).
  { clear Hsorted Hnd. revert bs Hages.
    induction rs as [|r rs IH]; intros [|b bs] Hages;
      try discriminate; [reflexivity|].
    cbn [map] in Hages. injection Hages as _ Hages.
    cbn [combine map]. now rewrite IH. }
  rewrite Hc. now apply strict_sorted_le.
Qed.

Lemma seq_ages_sorted (f : Z) (a n : nat) :
  StronglySorted Z.lt (map (fun k => (f + Z.of_nat k)%Z) (seq a n)).
Proof.
  revert a. induction n as [|n IH]; intros a; cbn [seq map];
    constructor; [apply IH|].
  apply Forall_forall. intros b Hb. apply in_map_iff in Hb.
  destruct Hb as (k & <- & Hk). apply in_seq in Hk. lia.
Qed.

(** X25.  For two scenarios of the same component state the chart has
    one row per row of the scenarios, in the same order: row [k] carries
    the age [floor currentAge + k], the nominal and real balances of the
    first scenario and the nominal balance of the second after [12 * k]
    months. *)
Theorem X25_chart_of_two_scenarios (u : Inputs)
    (d feeP feeF d' feeP' feeF' : R) :
  let p := mkArgs u d feeP feeF in
  let q := mkArgs u d' feeP' feeF' in
  chartRows (rows (mk u d feeP feeF)) (rows (mk u d' feeP' feeF')) =
  map (fun k =>
         mkChartRow (Math_floor (currentAge p) + Z.of_nat k)
           (Some (balAt p (12 * k)))
           (Some (balAt p (12 * k) / deflator p (Z.of_nat (12 * k))))
           (Some (balAt q (12 * k))))
    (seq 0 (S (nmonths p / 12))).
Proof.
  intros p q. unfold mk. fold p q. rewrite !rows_simulate.
  change (nmonths q) with (nmonths p).
  set (ks := seq 0 (S (nmonths p / 12))).
  assert (HagesP : map age (map (yearRow p) ks)
                   = map (fun k => (Math_floor (currentAge p) + Z.of_nat k)%Z)
                       ks).
  { rewrite map_map. apply map_ext. intros k. apply yearRow_age. }
  assert (HagesQ : map age (map (yearRow q) ks)
                   = map (fun k => (Math_floor (currentAge p) + Z.of_nat k)%Z)
                       ks).
  { rewrite map_map. apply map_ext. intros k. apply (yearRow_age q). }
  rewrite chartRows_aligned.
  - clear HagesP HagesQ. clearbody ks.
    induction ks as [|k ks IH]; [reflexivity|].
    cbn [map combine]. rewrite IH. f_equal.
    unfold mergedRow. cbn [fst snd]. rewrite yearRow_age. reflexivity.
  - now rewrite HagesP, HagesQ.
  - rewrite HagesP. apply seq_ages_sorted.
Qed.
